(** * catprinter: the BLE session of [catprinter/ble.py]

    A shallow embedding of [src/catprinter/ble.py], [src/catprinter/img.py]
    and [src/print.py].  Python [bytes] are lists of bytes, Python [int] is
    [Z], Python [str] is [string] (the identifiers and keywords the program
    inspects are ASCII), exceptions are the [Raise] branch of [result].
    The BLE stack, the console and the ImageMagick process are the fields
    of an explicit [World]; every effect of [run_ble] is an [event] of a
    trace that the computation threads through. *)

From Stdlib Require Import ZArith Lia String Ascii Bool Arith DecimalString QArith.
From Stdlib.Strings Require Import Byte.
From Stdlib Require Import List.
Import ListNotations.
Open Scope string_scope.
Open Scope list_scope.
Open Scope Z_scope.

Set Implicit Arguments.

(** ** Exceptions and results *)

Inductive exn : Type :=
| ValueError (msg : string)
| RuntimeError (msg : string)
| BleakError (msg : string).

Inductive result (A : Type) : Type :=
| Ok (a : A)
| Raise (e : exn).

Arguments Ok {A} a.
Arguments Raise {A} e.

Abbreviation bytes := (list byte).

(** ** Python built-ins used by [chunkify] *)

Module Py.

(** Number of elements of [range(start, stop, step)] for [step <> 0]. *)
Definition range_len (start stop step : Z) : Z :=
  let lo := if 0 <? step then start else stop in
  let hi := if 0 <? step then stop else start in
  let st := if 0 <? step then step else - step in
  if hi <=? lo then 0 else (hi - lo - 1) / st + 1.

(** [range(start, stop, step)], iterated to the end. *)
Definition range (start stop step : Z) : result (list Z) :=
  if step =? 0 then Raise (ValueError "range() arg 3 must not be zero")
  else Ok (map (fun k => start + Z.of_nat k * step)
               (seq 0 (Z.to_nat (range_len start stop step)))).

(** One bound of a slice: a negative index counts from the end, and the
    result is clamped to [0, len]. *)
Definition slice_bound (len i : Z) : Z :=
  if i <? 0 then Z.max 0 (i + len) else Z.min i len.

(** [l[i:j]]. *)
Definition slice {A : Type} (l : list A) (i j : Z) : list A :=
  let len := Z.of_nat (length l) in
  let lo := slice_bound len i in
  let hi := slice_bound len j in
  firstn (Z.to_nat (hi - lo)) (skipn (Z.to_nat lo) l).

Definition len {A : Type} (l : list A) : Z := Z.of_nat (length l).

End Py.

(** ** Python [str] methods used by the program

    Characters are classified as CPython classifies ASCII characters: the
    functions below are those of CPython on the strings that [is_ascii]
    accepts, and the properties of what the program does with an
    identifier or a typed line are stated for such strings. *)

Module Str.

Definition code (c : ascii) : N := N_of_ascii c.

(** [c] is an ASCII character. *)
Definition is_ascii_char (c : ascii) : bool := (code c <? 128)%N.

Definition between (lo hi c : ascii) : bool :=
  ((code lo <=? code c) && (code c <=? code hi))%N.

Definition is_digit (c : ascii) : bool := between "0" "9" c.
Definition is_upper (c : ascii) : bool := between "A" "Z" c.
Definition is_lower (c : ascii) : bool := between "a" "z" c.

(** [c.isalnum()] for one ASCII character. *)
Definition is_alnum (c : ascii) : bool :=
  is_digit c || is_upper c || is_lower c.

(** Whitespace of [str.strip()]: TAB, LF, VT, FF, CR, FS, GS, RS, US and
    space. *)
Definition is_space (c : ascii) : bool :=
  ((9 <=? code c) && (code c <=? 13) ||
   (28 <=? code c) && (code c <=? 31) || (code c =? 32))%N.

(** Whitespace of [int()]: TAB, LF, VT, FF, CR and space. *)
Definition is_c_space (c : ascii) : bool :=
  ((9 <=? code c) && (code c <=? 13) || (code c =? 32))%N.

Definition lower_char (c : ascii) : ascii :=
  if is_upper c then ascii_of_N (code c + 32) else c.

Fixpoint all_chars (p : ascii -> bool) (s : string) : bool :=
  match s with
  | EmptyString => true
  | String c r => p c && all_chars p r
  end.

Fixpoint mem (c : ascii) (chars : string) : bool :=
  match chars with
  | EmptyString => false
  | String d r => Ascii.eqb c d || mem c r
  end.

Definition len (s : string) : Z := Z.of_nat (String.length s).

(** [s.isascii()]. *)
Definition is_ascii (s : string) : bool := all_chars is_ascii_char s.

(** [s.lower()]. *)
Fixpoint lower (s : string) : string :=
  match s with
  | EmptyString => EmptyString
  | String c r => String (lower_char c) (lower r)
  end.

(** [s.isalnum()]: at least one character, all of them alphanumeric. *)
Definition isalnum (s : string) : bool :=
  match s with
  | EmptyString => false
  | String _ _ => all_chars is_alnum s
  end.

(** [s.count(c)] for a one-character [c]. *)
Fixpoint count (s : string) (c : ascii) : Z :=
  match s with
  | EmptyString => 0
  | String d r => (if Ascii.eqb d c then 1 else 0) + count r c
  end.

(** [s.replace(old, new)] for a non-empty [old]: occurrences are replaced
    from the left and do not overlap; [skip] counts the characters of the
    occurrence being replaced that are still to be passed over. *)
Fixpoint replace_from (old new s : string) (skip : nat) : string :=
  match s with
  | EmptyString => EmptyString
  | String c r =>
      match skip with
      | S k => replace_from old new r k
      | O =>
          if String.prefix old s
          then (new ++ replace_from old new r (String.length old - 1))%string
          else String c (replace_from old new r 0)
      end
  end.

Definition replace (s old new : string) : string :=
  replace_from old new s 0.

(** [s.lstrip(chars)], [s.rstrip(chars)] and [s.strip(chars)], the set of
    characters given as a predicate. *)
Fixpoint lstrip_by (p : ascii -> bool) (s : string) : string :=
  match s with
  | EmptyString => EmptyString
  | String c r => if p c then lstrip_by p r else s
  end.

Fixpoint rstrip_by (p : ascii -> bool) (s : string) : string :=
  match s with
  | EmptyString => EmptyString
  | String c r =>
      match rstrip_by p r with
      | EmptyString => if p c then EmptyString else String c EmptyString
      | r' => String c r'
      end
  end.

Definition strip_by (p : ascii -> bool) (s : string) : string :=
  rstrip_by p (lstrip_by p s).

Definition strip_chars (s chars : string) : string :=
  strip_by (fun c => mem c chars) s.

Definition rstrip_chars (s chars : string) : string :=
  rstrip_by (fun c => mem c chars) s.

(** [s.strip()]. *)
Definition strip (s : string) : string := strip_by is_space s.

(** [s] without the occurrences of the character [c]. *)
Fixpoint without (c : ascii) (s : string) : string :=
  match s with
  | EmptyString => EmptyString
  | String d r => if Ascii.eqb d c then without c r else String d (without c r)
  end.

(** [s[i:j]]. *)
Definition slice (s : string) (i j : Z) : string :=
  string_of_list_ascii (Py.slice (list_ascii_of_string s) i j).

(** [s.encode("utf-8")] and [b.decode("utf-8")] on ASCII text. *)
Definition encode (s : string) : bytes := list_byte_of_string s.
Definition decode (b : bytes) : string := string_of_list_byte b.

(** [str(n)] for an integer. *)
Definition of_int (n : Z) : string := NilZero.string_of_int (Z.to_int n).

(** Truth value of an [Optional[str]]: [None] and [""] are false. *)
Definition truthy (s : option string) : bool :=
  match s with
  | None | Some EmptyString => false
  | Some (String _ _) => true
  end.

End Str.

(** ** [int(s, 16)] and ["%032x" % n] *)

Module Int16.

(** CPython's digit table: [0-9] are 0..9, letters of either case are
    10..35, every other character is 37. *)
Definition digit_value (c : ascii) : Z :=
  if Str.is_digit c then Z.of_N (Str.code c) - 48
  else if Str.is_lower c then Z.of_N (Str.code c) - 87
  else if Str.is_upper c then Z.of_N (Str.code c) - 55
  else 37.

Definition is_hex (c : ascii) : bool := digit_value c <? 16.

(** The run of digits and single underscores at the head of [s]:
    [prev_us] tells whether the previous character was an underscore.
    Returns the value, the number of digits and the unread rest; [None]
    on a doubled or trailing underscore. *)
Fixpoint digits (s : string) (prev_us : bool) (acc : Z) (n : nat)
  : option (Z * nat * string) :=
  match s with
  | EmptyString => if prev_us then None else Some (acc, n, s)
  | String c r =>
      if Ascii.eqb c "_" then
        if prev_us then None else digits r true acc n
      else if is_hex c then digits r false (acc * 16 + digit_value c) (S n)
      else if prev_us then None else Some (acc, n, s)
  end.

(** The value of a string of digits read after [acc]. *)
Fixpoint value (s : string) (acc : Z) : Z :=
  match s with
  | EmptyString => acc
  | String c r => value r (acc * 16 + digit_value c)
  end.

Definition invalid_literal : exn :=
  ValueError "invalid literal for int() with base 16".

Definition strip_sign (s : string) : Z * string :=
  match s with
  | String c r =>
      if Ascii.eqb c "+" then (1, r)
      else if Ascii.eqb c "-" then (-1, r)
      else (1, s)
  | EmptyString => (1, s)
  end.

(** The optional [0x] or [0X], and the one underscore allowed after it. *)
Definition strip_prefix (s : string) : string :=
  match s with
  | String c (String x r) =>
      if Ascii.eqb c "0" && (Ascii.eqb x "x" || Ascii.eqb x "X") then
        match r with
        | String u r' => if Ascii.eqb u "_" then r' else r
        | EmptyString => r
        end
      else s
  | _ => s
  end.

Definition starts_with (c : ascii) (s : string) : bool :=
  match s with
  | String d _ => Ascii.eqb d c
  | EmptyString => false
  end.

(** [int(s, 16)] for an ASCII [s]. *)
Definition parse (s : string) : result Z :=
  let s1 := Str.lstrip_by Str.is_c_space s in
  let (sign, s2) := strip_sign s1 in
  let s3 := strip_prefix s2 in
  if starts_with "_" s3 then Raise invalid_literal
  else
    match digits s3 false 0 0 with
    | None => Raise invalid_literal
    | Some (_, O, _) => Raise invalid_literal
    | Some (v, S _, rest) =>
        if Str.all_chars Str.is_c_space rest then Ok (sign * v)
        else Raise invalid_literal
    end.

Definition hex_char (d : Z) : ascii :=
  if d <? 10 then ascii_of_N (Z.to_N (d + 48))
  else ascii_of_N (Z.to_N (d + 87)).

(** Number of hexadecimal digits of [n >= 0]. *)
Definition hex_len (n : Z) : nat :=
  if n =? 0 then 1%nat else Z.to_nat (Z.log2 n / 4 + 1).

(** ["%032x" % n] for [n >= 0]: the lower-case digits of [n], most
    significant first, padded with zeros on the left to 32 places. *)
Definition format_032x (n : Z) : string :=
  string_of_list_ascii
    (map (fun i => hex_char ((n / 16 ^ Z.of_nat i) mod 16))
         (rev (seq 0 (Nat.max 32 (hex_len n))))).

End Int16.

(** ** [uuid.UUID] *)

Module uuid.

(** [uuid.UUID(hex)]: the 128-bit value of the identifier. *)
Definition UUID (hex : string) : result Z :=
  let hex := Str.replace (Str.replace hex "urn:" "") "uuid:" "" in
  let hex := Str.replace (Str.strip_chars hex "{}") "-" "" in
  if negb (Str.len hex =? 32) then
    Raise (ValueError "badly formed hexadecimal UUID string")
  else
    match Int16.parse hex with
    | Raise e => Raise e
    | Ok int =>
        if negb ((0 <=? int) && (int <? 2 ^ 128)) then
          Raise (ValueError "int is out of range (need a 128-bit value)")
        else Ok int
    end.

(** [str(u)] for a UUID of value [int]. *)
Definition str (int : Z) : string :=
  let hex := Int16.format_032x int in
  (Str.slice hex 0 8 ++ "-" ++ Str.slice hex 8 12 ++ "-" ++
   Str.slice hex 12 16 ++ "-" ++ Str.slice hex 16 20 ++ "-" ++
   Str.slice hex 20 (Str.len hex))%string.

End uuid.

(** ** [chunkify]

    The generator is run to exhaustion: either creating the [range] raises
    before the first fragment, or every fragment is yielded in order. *)

Definition chunkify (data : bytes) (size : Z) : result (list bytes) :=
  match Py.range 0 (Py.len data) size with
  | Raise e => Raise e
  | Ok idx => Ok (map (fun i => Py.slice data i (i + size)) idx)
  end.

(** [ceil(a / b)] for [b > 0]. *)
Definition ceil_div (a b : Z) : Z := (a + b - 1) / b.

(** The bytes of [B] at positions [off, off + n). *)
Definition span {A : Type} (B : list A) (off n : nat) : list A :=
  firstn n (skipn off B).

(** The fragments written out by position: fragment [k] starts at [k * F]. *)
Definition frames {A : Type} (B : list A) (F n : nat) : list (list A) :=
  map (fun k => span B (k * F) F) (seq 0 n).

(** Total length of the fragments before fragment [k]. *)
Definition offset_of {A : Type} (frags : list (list A)) (k : nat) : nat :=
  length (concat (firstn k frags)).

(** ** The BLE stack, the console and the collaborators *)

Module bleak.

Record BLEDevice : Type := {
  address : string;
  name : option string
}.

Record AdvertisementData : Type := {
  local_name : option string;
  service_uuids : list string
}.

End bleak.

Abbreviation BLEDevice := bleak.BLEDevice.
Abbreviation AdvertisementData := bleak.AdvertisementData.

(** What [BleakClient(...)] accepts: an address or a scanned device. *)
Inductive Address : Type :=
| AddrStr (s : string)
| AddrDev (d : BLEDevice).

(** A connected client: whether it is an instance of the BlueZ backend
    class, and its current [mtu_size]. *)
Record Client : Type := {
  is_bluez : bool;
  mtu_size : Z
}.

(** A 2-D [uint8] array: [shape = (rows, columns)], pixels row by row. *)
Record ndarray : Type := {
  shape : Z * Z;
  pixels : list Z
}.

(** The outcome of the ImageMagick process. *)
Record Completed : Type := {
  returncode : Z;
  stdout : bytes;
  stderr : bytes
}.

Record World : Type := {
  (** advertisements received within [timeout] seconds, in order of
      arrival; the scanner itself is taken to run to its end, so what
      [find_device_by_filter] raises when the adapter fails is not
      covered *)
  advertisements : Z -> list (BLEDevice * AdvertisementData);
  (** [BleakClient(address).__aenter__] *)
  connect : Address -> result Client;
  (** [client._acquire_mtu()]: the client with its negotiated [mtu_size] *)
  acquire_mtu : Client -> result Client;
  (** whether the write after [n] completed writes succeeds *)
  write_ok : nat -> bool;
  (** [sys.stdin.isatty()] *)
  stdin_isatty : bool;
  (** piped: the lines iterated from [sys.stdin], newline included;
      terminal: what [input] returns, call after call, until end of file *)
  stdin_lines : list string;
  (** the process started by [subprocess.Popen], from its arguments and
      its standard input; the program is taken to be installed and its
      error output to be decodable, so what [Popen] and [decode] raise
      otherwise is not covered *)
  popen : list string -> bytes -> Completed;
  (** [cv2.imdecode(_, cv2.IMREAD_GRAYSCALE)], [None] when undecodable *)
  imdecode : bytes -> option ndarray;
  (** [catprinter.cmds], whose source is not among the files at hand:
      what [prepare()], [finish()] and [cmds_print_img(img, skip_flush)]
      return is taken as given *)
  prepare : bytes;
  finish : bytes;
  cmds_print_img : ndarray -> bool -> bytes
}.

(** ** Events *)

Inductive Level : Type := DEBUG | INFO | WARN | ERROR.

Definition level_no (l : Level) : Z :=
  match l with DEBUG => 10 | INFO => 20 | WARN => 30 | ERROR => 40 end.

(** The messages the program logs, with the values they are formatted from. *)
Inductive Message : Type :=
| MsgAutoDiscovering
| MsgSearching (name : option string)
| MsgFound (device : BLEDevice)
| MsgStop (e : exn)
| MsgConnecting (a : Address)
| MsgConnected (mtu : Z)
| MsgPrinting (nbytes width height : Z)
| MsgDone
| MsgRendering (text : string)
| MsgThresholding
| MsgRenderDone.

(** The three places of [run_ble] that write to the characteristic. *)
Inductive Site : Type := AtPrepare | AtChunk | AtFinish.

Inductive event : Type :=
| Log (l : Level) (m : Message)
| Scan (timeout : Z)
| Connect (a : Address)
| AcquireMtu
| Write (site : Site) (characteristic : string) (data : bytes)
| Sleep (seconds : Q)
| Disconnect
| Print (s : string)
| Prompt (s : string)
| Popen (args : list string) (input : bytes).

(** ** Computations: a trace threaded through, and a result or an exception *)

Definition M (A : Type) : Type := list event -> list event * result A.

Definition ret {A : Type} (a : A) : M A := fun tr => (tr, Ok a).

Definition raise {A : Type} (e : exn) : M A := fun tr => (tr, Raise e).

Definition bind {A B : Type} (m : M A) (k : A -> M B) : M B :=
  fun tr =>
    match m tr with
    | (tr', Ok a) => k a tr'
    | (tr', Raise e) => (tr', Raise e)
    end.

Definition emit (e : event) : M unit := fun tr => (tr ++ [e], Ok tt).

Definition lift {A : Type} (r : result A) : M A := fun tr => (tr, r).

Notation "x <- m ;; k" := (bind m (fun x => k))
  (at level 61, m at next level, right associativity).
Notation "m ;; k" := (bind m (fun _ => k))
  (at level 61, right associativity).

Definition log (l : Level) (m : Message) : M unit := emit (Log l m).

Fixpoint emit_all (es : list event) : M unit :=
  match es with
  | [] => ret tt
  | e :: es' => emit e ;; emit_all es'
  end.

Fixpoint for_each {A : Type} (xs : list A) (body : A -> M unit) : M unit :=
  match xs with
  | [] => ret tt
  | x :: xs' => body x ;; for_each xs' body
  end.

(** A generator with effects: [pre] is what running it up to its next
    [yield] (or to its end) does. *)
Inductive gen (A : Type) : Type :=
| GStop (pre : list event)
| GYield (pre : list event) (x : A) (rest : gen A).

Arguments GStop {A} pre.
Arguments GYield {A} pre x rest.

Fixpoint for_gen {A : Type} (g : gen A) (body : A -> M unit) : M unit :=
  match g with
  | GStop pre => emit_all pre
  | GYield pre x rest => emit_all pre ;; body x ;; for_gen rest body
  end.

(** The values a generator yields when run to its end. *)
Fixpoint yields {A : Type} (g : gen A) : list A :=
  match g with
  | GStop _ => []
  | GYield _ x rest => x :: yields rest
  end.

(** [try: ... except RuntimeError as e: ...]. *)
Definition try_RuntimeError {A : Type} (m : M A) (handler : exn -> M A) : M A :=
  fun tr =>
    match m tr with
    | (tr', Raise (RuntimeError msg)) => handler (RuntimeError msg) tr'
    | r => r
    end.

(** [with contextlib.suppress(ValueError): return ...]: [Some] is the value
    returned, [None] means the exception was suppressed. *)
Definition suppress_ValueError {A : Type} (r : result A) : result (option A) :=
  match r with
  | Ok a => Ok (Some a)
  | Raise (ValueError _) => Ok None
  | Raise e => Raise e
  end.

(** ** [catprinter/ble.py] *)

Definition POSSIBLE_SERVICE_UUIDS : list string := [
  "0000ae30-0000-1000-8000-00805f9b34fb";
  "0000af30-0000-1000-8000-00805f9b34fb"
].

Definition TX_CHARACTERISTIC_UUID : string :=
  "0000ae01-0000-1000-8000-00805f9b34fb".
Definition SCAN_TIMEOUT_S : Z := 10.
Definition WAIT_AFTER_EACH_CHUNK_S : Q := 2 # 100.

(** [x in xs] for strings. *)
Definition str_in (x : string) (xs : list string) : bool :=
  existsb (String.eqb x) xs.

(** [a == b] for two [Optional[str]]. *)
Definition opt_str_eq (a b : option string) : bool :=
  match a, b with
  | Some x, Some y => String.eqb x y
  | None, None => true
  | _, _ => false
  end.

(** The closure [matches] of [scan]. *)
Definition matches (autodiscover : bool) (name : option string)
    (device : BLEDevice) (adv : AdvertisementData) : bool :=
  if autodiscover then
    existsb (fun uuid => str_in uuid adv.(bleak.service_uuids))
            POSSIBLE_SERVICE_UUIDS
  else opt_str_eq device.(bleak.name) name.

(** [BleakScanner.find_device_by_filter]: the first advertisement received
    within the timeout that the filter accepts. *)
Definition find_device_by_filter (w : World)
    (filter : BLEDevice -> AdvertisementData -> bool) (timeout : Z)
  : M (option BLEDevice) :=
  emit (Scan timeout) ;;
  ret (option_map fst
         (find (fun da => filter (fst da) (snd da)) (w.(advertisements) timeout))).

Definition not_found : exn :=
  RuntimeError "Printer not found. Ensure it is powered on and nearby.".

Definition scan (w : World) (name : option string) (timeout : Z) : M BLEDevice :=
  let autodiscover := negb (Str.truthy name) in
  let msg := if autodiscover then MsgAutoDiscovering else MsgSearching name in
  log INFO msg ;;
  device <- find_device_by_filter w (matches autodiscover name) timeout ;;
  match device with
  | None => raise not_found
  | Some device => log INFO (MsgFound device) ;; ret device
  end.

Definition get_device_address (w : World) (device : option string) : M Address :=
  let scanning :=
    d <- scan w device SCAN_TIMEOUT_S ;; ret (AddrDev d) in
  match device with
  | Some (String _ _ as dev) =>
      r <- lift (suppress_ValueError (uuid.UUID dev)) ;;
      match r with
      | Some u => ret (AddrStr (uuid.str u))
      | None =>
          if (Str.count dev ":" =? 5) && Str.isalnum (Str.replace dev ":" "")
          then ret (AddrStr dev)
          else scanning
      end
  | _ => scanning
  end.

(** [get_input_lines] on a terminal: [pending] collects what was written to
    the console since the last [yield]. *)
Fixpoint interactive_lines (typed : list string) (pending : list event)
  : gen string :=
  match typed with
  | [] => GStop (pending ++ [Prompt "> "])
  | l :: typed' =>
      let line := Str.strip l in
      match line with
      | EmptyString => interactive_lines typed' (pending ++ [Prompt "> "])
      | _ =>
          if str_in (Str.lower line) ["exit"; "quit"]
          then GStop (pending ++ [Prompt "> "])
          else GYield (pending ++ [Prompt "> "]) line
                      (interactive_lines typed' [])
      end
  end.

Fixpoint piped_lines (lines : list string) : gen string :=
  match lines with
  | [] => GStop []
  | line :: lines' =>
      GYield [] (Str.rstrip_chars line (String "010" "")) (piped_lines lines')
  end.

Definition get_input_lines (w : World) : gen string :=
  if negb w.(stdin_isatty) then piped_lines w.(stdin_lines)
  else interactive_lines w.(stdin_lines)
         [Print "Enter text (type 'exit' or 'quit' to stop):"].

Definition write_gatt_char (w : World) (site : Site)
    (characteristic : string) (data : bytes) : M unit :=
  fun tr =>
    let done := List.length (filter (fun e => match e with Write _ _ _ => true | _ => false end) tr) in
    if w.(write_ok) done then (tr ++ [Write site characteristic data], Ok tt)
    else (tr, Raise (BleakError "write failed")).

(** [async with BleakClient(address) as client: body]: the client is
    disconnected however the body ends. *)
Definition with_client {A : Type} (w : World) (a : Address)
    (body : Client -> M A) : M A :=
  fun tr =>
    match w.(connect) a with
    | Raise e => (tr, Raise e)
    | Ok client =>
        let (tr', r) := body client (tr ++ [Connect a]) in
        (tr' ++ [Disconnect], r)
    end.

(** ** [catprinter/img.py] *)

Definition MagickExe : option string := Some "magick".

Definition magick_text (w : World) (text : string) (image_width font_size : Z)
    (font_family : string) : M bytes :=
  match MagickExe with
  | None => raise (RuntimeError "ImageMagick not found")
  | Some exe =>
      let args := [
        exe;
        "-background"; "white";
        "-fill"; "black";
        "-size"; (Str.of_int image_width ++ "x")%string;
        "-font"; font_family;
        "-weight"; "700";
        "-stroke"; "black";
        "-strokewidth"; "1";
        "-pointsize"; Str.of_int font_size;
        "caption:@-";
        "pbm:-"
      ] in
      emit (Popen args (Str.encode text)) ;;
      let proc := w.(popen) args (Str.encode text) in
      if negb (proc.(returncode) =? 0) then
        raise (RuntimeError
                 ("ImageMagick failed: " ++ Str.decode proc.(stderr))%string)
      else ret proc.(stdout)
  end.

(** [cv2.threshold(img, thresh, maxval, cv2.THRESH_BINARY_INV)]. *)
Definition threshold_binary_inv (img : ndarray) (thresh maxval : Z) : ndarray :=
  {| shape := img.(shape);
     pixels := map (fun p => if thresh <? p then 0 else maxval) img.(pixels) |}.

Definition text_to_image_with (w : World) (text : string) (width font_size : Z)
    (font_family : string) : M ndarray :=
  log DEBUG (MsgRendering text) ;;
  pbm_bytes <- magick_text w text width font_size font_family ;;
  match w.(imdecode) pbm_bytes with
  | None => raise (RuntimeError "Failed to decode PBM image")
  | Some img =>
      log DEBUG MsgThresholding ;;
      let binary := threshold_binary_inv img 127 1 in
      log DEBUG MsgRenderDone ;;
      ret binary
  end.

(** [text_to_image(text)] with its default arguments. *)
Definition text_to_image (w : World) (text : string) : M ndarray :=
  text_to_image_with w text 384 22 "FreeMono".

(** ** [run_ble] and [main] *)

(** The body of the [for text in get_input_lines()] loop. *)
Definition print_text (w : World) (chunk_size : Z) (text : string) : M unit :=
  match text with
  | EmptyString => ret tt
  | _ =>
      bin_img <- text_to_image w text ;;
      let piped := negb w.(stdin_isatty) in
      let data := w.(cmds_print_img) bin_img piped in
      log DEBUG (MsgPrinting (Py.len data) (snd bin_img.(shape))
                             (fst bin_img.(shape))) ;;
      chunks <- lift (chunkify data chunk_size) ;;
      for_each chunks (fun chunk =>
        write_gatt_char w AtChunk TX_CHARACTERISTIC_UUID chunk ;;
        emit (Sleep WAIT_AFTER_EACH_CHUNK_S))
  end.

(** The body of the [async with] block. *)
Definition session (w : World) (client : Client) : M unit :=
  client <- (if client.(is_bluez)
             then emit AcquireMtu ;; lift (w.(acquire_mtu) client)
             else ret client) ;;
  log INFO (MsgConnected client.(mtu_size)) ;;
  let chunk_size := client.(mtu_size) - 3 in
  write_gatt_char w AtPrepare TX_CHARACTERISTIC_UUID w.(prepare) ;;
  for_gen (get_input_lines w) (print_text w chunk_size) ;;
  write_gatt_char w AtFinish TX_CHARACTERISTIC_UUID w.(finish) ;;
  log INFO MsgDone.

Definition run_ble (w : World) (device : option string) : M unit :=
  r <- try_RuntimeError
         (a <- get_device_address w device ;; ret (Some a))
         (fun e => log ERROR (MsgStop e) ;; ret None) ;;
  match r with
  | None => ret tt
  | Some address =>
      log INFO (MsgConnecting address) ;;
      with_client w address (session w)
  end.

(** The choices of [--log-level]. *)
Inductive LogChoice : Type := debug | info | warn | error.

Record Args : Type := {
  log_level : LogChoice;
  device : string
}.

(** [getattr(logging, args.log_level.upper())]. *)
Definition logging_level (c : LogChoice) : Level :=
  match c with debug => DEBUG | info => INFO | warn => WARN | error => ERROR end.

(** What the handler installed by [configure_logger] writes to the
    console: the records at or above the configured level. *)
Definition console (log_level : Level) (tr : list event) : list Message :=
  flat_map (fun e =>
    match e with
    | Log l m => if level_no log_level <=? level_no l then [m] else []
    | _ => []
    end) tr.

(** [main]: the console output of the logger, and how the program ends. *)
Definition main (w : World) (args : Args) : list Message * result unit :=
  let log_level := logging_level args.(log_level) in
  let (tr, r) := run_ble w (Some args.(device)) [] in
  (console log_level tr, r).

(** ** Observations on a trace *)

Definition writes (tr : list event) : list (Site * bytes) :=
  flat_map (fun e =>
    match e with Write s _ d => [(s, d)] | _ => [] end) tr.

Definition sites (tr : list event) : list Site := map fst (writes tr).

(** The texts handed to the renderer, one per print job. *)
Definition rendered (tr : list event) : list string :=
  flat_map (fun e =>
    match e with Log _ (MsgRendering t) => [t] | _ => [] end) tr.

Definition is_transport (e : event) : bool :=
  match e with
  | Connect _ | AcquireMtu | Write _ _ _ | Disconnect => true
  | _ => false
  end.

(** Neither a transport operation nor a rendering among the events. *)
Definition quiet (es : list event) : Prop :=
  Forall (fun e => is_transport e = false /\ rendered [e] = []) es.

(** A generator that only talks to the console between its yields. *)
Fixpoint console_only {A : Type} (g : gen A) : Prop :=
  match g with
  | GStop pre => quiet pre /\ rendered pre = []
  | GYield pre _ rest => quiet pre /\ rendered pre = [] /\ console_only rest
  end.

Definition nonblank (lines : list string) : list string :=
  filter (fun t => match t with EmptyString => false | _ => true end) lines.

(** How rendering [text] ends. *)
Definition render (w : World) (text : string) : result ndarray :=
  snd (text_to_image w text []).

(** The fragments of the print job of [text] for a given fragment size. *)
Definition job_fragments (w : World) (chunk_size : Z) (text : string)
  : result (list bytes) :=
  match render w text with
  | Raise e => Raise e
  | Ok bin_img =>
      chunkify (w.(cmds_print_img) bin_img (negb w.(stdin_isatty))) chunk_size
  end.

(** Every text of the list has a print job. *)
Definition renders_all (w : World) (chunk_size : Z) (texts : list string) : Prop :=
  Forall (fun t => exists fs, job_fragments w chunk_size t = Ok fs) texts.

Definition fragments_of (w : World) (chunk_size : Z) (text : string)
  : list bytes :=
  match job_fragments w chunk_size text with
  | Ok fs => fs
  | Raise _ => []
  end.

(** The client once the MTU has been acquired, where [run_ble] does that. *)
Definition negotiated (w : World) (client : Client) : result Client :=
  if client.(is_bluez) then w.(acquire_mtu) client else Ok client.

(** The program reads the given lines: typed at the terminal, or piped
    with a newline after each. *)
Definition reads (w : World) (lines : list string) : Prop :=
  if w.(stdin_isatty) then w.(stdin_lines) = lines
  else w.(stdin_lines) = map (fun l => (l ++ String "010" "")%string) lines.

Definition chunk_writes (fs : list bytes) : list (Site * bytes) :=
  map (pair AtChunk) fs.

(** The run got as far as writing the preamble. *)
Definition reaches_streaming (tr : list event) : Prop :=
  In AtPrepare (sites tr).

(** The writes of the run are the preamble, then fragments only, then the
    flush, once. *)
Definition flushed_after_jobs (w : World) (tr : list event) : Prop :=
  exists fs,
    writes tr = (AtPrepare, w.(prepare)) :: chunk_writes fs
                  ++ [(AtFinish, w.(finish))].

(** ** The identifier forms the specification names *)

(** One position of a fixed-format identifier: a hexadecimal digit of
    either case, or a given character. *)
Inductive Slot : Type := Hex | Lit (c : ascii).

Fixpoint has_form (form : list Slot) (s : string) : bool :=
  match form, s with
  | [], EmptyString => true
  | Hex :: form', String c r => Int16.is_hex c && has_form form' r
  | Lit d :: form', String c r => Ascii.eqb c d && has_form form' r
  | _, _ => false
  end.

Definition hexes (n : nat) : list Slot := repeat Hex n.

(** The positions of a form that removing the character [d] leaves. *)
Definition keeps (d : ascii) (sl : Slot) : bool :=
  match sl with
  | Hex => true
  | Lit c => negb (Ascii.eqb c d)
  end.

(** The canonical dashed form of a 128-bit identifier: 8-4-4-4-12. *)
Definition uuid_form : list Slot :=
  hexes 8 ++ [Lit "-"] ++ hexes 4 ++ [Lit "-"] ++ hexes 4 ++ [Lit "-"]
    ++ hexes 4 ++ [Lit "-"] ++ hexes 12.

(** Six groups of two hexadecimal digits separated by colons. *)
Definition address_form : list Slot :=
  hexes 2 ++ [Lit ":"] ++ hexes 2 ++ [Lit ":"] ++ hexes 2 ++ [Lit ":"]
    ++ hexes 2 ++ [Lit ":"] ++ hexes 2 ++ [Lit ":"] ++ hexes 2.

Definition is_canonical_uuid (s : string) : bool := has_form uuid_form s.
Definition is_colon_address (s : string) : bool := has_form address_form s.

(** The second test of [get_device_address]: five colons, and something
    alphanumeric once they are removed. *)
Definition five_colons_alnum (s : string) : bool :=
  (Str.count s ":" =? 5) && Str.isalnum (Str.replace s ":" "").

(** Handing the identifier to the scanner as a name filter. *)
Definition scanning (w : World) (name : option string) : M Address :=
  d <- scan w name SCAN_TIMEOUT_S ;; ret (AddrDev d).

(** The resolution as the specification words it: a canonical identifier
    or a six-group address comes back verbatim, anything else goes to the
    scanner. *)
Definition resolves_as_specified (w : World) (s : string) : Prop :=
  forall tr,
    get_device_address w (Some s) tr =
      if is_canonical_uuid s then (tr, Ok (AddrStr s))
      else if is_colon_address s then (tr, Ok (AddrStr s))
      else scanning w (Some s) tr.

(** ** Invariants of traces *)

(** The events of a run outside the connection itself: the logging below
    [ERROR], the scan, the console, the renderer's process, and the writes
    of the preamble and of the flush to the TX characteristic. *)
Definition plain (e : event) : bool :=
  match e with
  | Log INFO _ | Log DEBUG _ => true
  | Scan _ | Print _ | Prompt _ | Popen _ _ => true
  | Write AtPrepare u _ | Write AtFinish u _ =>
      String.eqb u TX_CHARACTERISTIC_UUID
  | _ => false
  end.

(** A property of event lists that survives concatenation and holds of
    what the steps of a run append. *)
Class Segmental (Q : list event -> Prop) : Prop := {
  seg_nil : Q [];
  seg_app : forall a b, Q a -> Q b -> Q (a ++ b);
  seg_plain : forall e, plain e = true -> Q [e];
  seg_chunk : forall c,
    Q [Write AtChunk TX_CHARACTERISTIC_UUID c; Sleep WAIT_AFTER_EACH_CHUNK_S]
}.

(** [m] only appends to the trace, and what it appends satisfies [Q]. *)
Definition appends {A : Type} (Q : list event -> Prop) (m : M A) : Prop :=
  forall tr, exists es r, m tr = (tr ++ es, r) /\ Q es.

(** [m] keeps the property [I] of the whole trace. *)
Definition preserves {A : Type} (I : list event -> Prop) (m : M A) : Prop :=
  forall tr, I tr -> I (fst (m tr)).

(** What a generator does between its yields is plain. *)
Fixpoint plain_gen {A : Type} (g : gen A) : Prop :=
  match g with
  | GStop pre => forallb plain pre = true
  | GYield pre _ rest => forallb plain pre = true /\ plain_gen rest
  end.

(** Every fragment write is followed at once by the pause, and there is no
    other pause. *)
Inductive paced : list event -> Prop :=
| paced_nil : paced []
| paced_chunk u c es :
    paced es -> paced (Write AtChunk u c :: Sleep WAIT_AFTER_EACH_CHUNK_S :: es)
| paced_other e es :
    match e with Write AtChunk _ _ | Sleep _ => False | _ => True end ->
    paced es -> paced (e :: es).

Definition is_link (e : event) : bool :=
  match e with Connect _ | Disconnect => true | _ => false end.

(** The connections and disconnections of a trace, in order. *)
Definition links (tr : list event) : list event := filter is_link tr.

Definition to_tx (e : event) : Prop :=
  match e with
  | Write _ u _ => u = TX_CHARACTERISTIC_UUID
  | _ => True
  end.

Definition below_warn (e : event) : Prop :=
  match e with
  | Log l _ => level_no l < level_no WARN
  | _ => True
  end.

Definition not_acquire (e : event) : Prop :=
  match e with AcquireMtu => False | _ => True end.

(** The trailing characters that [rstrip] removes from a piped line. *)
Definition newlines (n : nat) : string :=
  string_of_list_ascii (repeat "010"%char n).

Definition is_newline (c : ascii) : bool := Str.mem c (String "010" "").

(** The command line that [text_to_image] runs with its default
    arguments. *)
Definition magick_command : list string :=
  ["magick"; "-background"; "white"; "-fill"; "black"; "-size"; "384x";
   "-font"; "FreeMono"; "-weight"; "700"; "-stroke"; "black";
   "-strokewidth"; "1"; "-pointsize"; "22"; "caption:@-"; "pbm:-"].

(** The identifier, when there is one, is made of ASCII characters. *)
Definition ascii_identifier (device : option string) : bool :=
  match device with
  | Some s => Str.is_ascii s
  | None => true
  end.

(** A typed line that ends the interactive input. *)
Definition exit_word (l : string) : bool :=
  str_in (Str.lower (Str.strip l)) ["exit"; "quit"].

(** ** Sample worlds *)

Module Demo.

Definition printer : BLEDevice :=
  {| bleak.address := "AA:BB:CC:DD:EE:FF"; bleak.name := Some "GT01" |}.

Definition printer_adv : AdvertisementData :=
  {| bleak.local_name := Some "GT01";
     bleak.service_uuids := ["0000ae30-0000-1000-8000-00805f9b34fb"] |}.

Definition headset : BLEDevice :=
  {| bleak.address := "11:22:33:44:55:66"; bleak.name := Some "Headset" |}.

Definition headset_adv : AdvertisementData :=
  {| bleak.local_name := Some "Headset";
     bleak.service_uuids := ["0000180f-0000-1000-8000-00805f9b34fb"] |}.

Definition image : ndarray := {| shape := (1, 2); pixels := [0; 255] |}.

(** A world whose BLE stack connects with an MTU of 23 and negotiates 8,
    whose writes all succeed, and whose renderer exits with [rc]. *)
Definition world (advs : list (BLEDevice * AdvertisementData))
    (isatty : bool) (lines : list string) (rc : Z) : World :=
  {| advertisements := fun _ => advs;
     connect := fun _ => Ok {| is_bluez := true; mtu_size := 23 |};
     acquire_mtu := fun c => Ok {| is_bluez := c.(is_bluez); mtu_size := 8 |};
     write_ok := fun _ => true;
     stdin_isatty := isatty;
     stdin_lines := lines;
     popen := fun _ input =>
       {| returncode := rc; stdout := input; stderr := [] |};
     imdecode := fun _ => Some image;
     prepare := [x51; x78]%byte;
     finish := [xff]%byte;
     cmds_print_img := fun _ _ => [x01; x02; x03; x04; x05; x06; x07]%byte |}.

Definition newline : string := String "010" "".

Definition piped_text : list string :=
  [("hello" ++ newline)%string; newline; ("world" ++ newline)%string].

Definition typed_text : list string := ["hello"; ""; "world"].

(** The printer advertises itself next to another device. *)
Definition nearby : World :=
  world [(headset, headset_adv); (printer, printer_adv)] false piped_text 0.

(** No printer in range. *)
Definition absent : World := world [(headset, headset_adv)] false piped_text 0.

(** ImageMagick fails. *)
Definition unrendered : World :=
  world [(printer, printer_adv)] false piped_text 1.

(** The same text typed at a terminal. *)
Definition terminal : World :=
  world [(printer, printer_adv)] true typed_text 0.

(** Nothing to print. *)
Definition wordless : World := world [(printer, printer_adv)] false [] 0.

End Demo.

(** ** Sample worlds with a failing transport *)

Module Faults.

(** [w] with a connection that is refused. *)
Definition refusing (w : World) (e : exn) : World :=
  {| advertisements := w.(advertisements);
     connect := fun _ => Raise e;
     acquire_mtu := w.(acquire_mtu);
     write_ok := w.(write_ok);
     stdin_isatty := w.(stdin_isatty);
     stdin_lines := w.(stdin_lines);
     popen := w.(popen);
     imdecode := w.(imdecode);
     prepare := w.(prepare);
     finish := w.(finish);
     cmds_print_img := w.(cmds_print_img) |}.

(** [w] with a link that drops after [n] writes. *)
Definition dropping (w : World) (n : nat) : World :=
  {| advertisements := w.(advertisements);
     connect := w.(connect);
     acquire_mtu := w.(acquire_mtu);
     write_ok := fun k => (k <? n)%nat;
     stdin_isatty := w.(stdin_isatty);
     stdin_lines := w.(stdin_lines);
     popen := w.(popen);
     imdecode := w.(imdecode);
     prepare := w.(prepare);
     finish := w.(finish);
     cmds_print_img := w.(cmds_print_img) |}.

End Faults.

(** * Properties *)

Section Chunks.

Variable A : Type.
Implicit Types (B : list A) (n k F : nat).

Lemma span_next B off F :
  firstn off B ++ span B off F = firstn (off + F) B.
Proof.
  unfold span. revert B. induction off as [|off IH]; intros B; simpl.
  - reflexivity.
  - destruct B as [|x B]; simpl.
    + now rewrite firstn_nil.
    + now rewrite IH.
Qed.

Lemma concat_frames B F n : concat (frames B F n) = firstn (n * F) B.
Proof.
  unfold frames. induction n as [|n IH].
  - reflexivity.
  - rewrite seq_S, map_app, concat_app, IH. simpl.
    rewrite app_nil_r, span_next. f_equal. lia.
Qed.

Lemma length_span B off F :
  length (span B off F) = Nat.min F (length B - off).
Proof. unfold span. now rewrite length_firstn, length_skipn. Qed.

Lemma length_frames B F n : length (frames B F n) = n.
Proof. unfold frames. now rewrite length_map, length_seq. Qed.

Lemma nth_error_frames B F n k :
  (k < n)%nat -> nth_error (frames B F n) k = Some (span B (k * F) F).
Proof.
  intros Hk. unfold frames. rewrite nth_error_map.
  rewrite nth_error_nth' with (d := 0%nat) by now rewrite length_seq.
  now rewrite seq_nth.
Qed.

Lemma firstn_frames B F n k :
  (k <= n)%nat -> firstn k (frames B F n) = frames B F k.
Proof.
  intros Hk. unfold frames. rewrite firstn_map. f_equal.
  replace n with (k + (n - k))%nat by lia.
  rewrite seq_app, firstn_app, length_seq, Nat.sub_diag, firstn_O, app_nil_r.
  apply firstn_all2. rewrite length_seq. lia.
Qed.

End Chunks.

Lemma firstn_min_length (A : Type) (l : list A) (n m : nat) :
  (length l <= m)%nat -> firstn (Nat.min n m) l = firstn n l.
Proof.
  intros Hm. destruct (Nat.le_ge_cases n m) as [H|H].
  - now rewrite Nat.min_l.
  - rewrite Nat.min_r by assumption.
    rewrite !firstn_all2; trivial; lia.
Qed.

Lemma slice_span (A : Type) (B : list A) (i size : Z) :
  0 <= i -> 0 <= size ->
  Py.slice B i (i + size) = span B (Z.to_nat i) (Z.to_nat size).
Proof.
  intros Hi Hs. unfold Py.slice, Py.slice_bound, span.
  destruct (Z.ltb_spec i 0); [lia|].
  destruct (Z.ltb_spec (i + size) 0); [lia|].
  destruct (Z.le_gt_cases i (Z.of_nat (length B))) as [Hle|Hgt].
  - rewrite (Z.min_l i) by assumption.
    replace (Z.to_nat (Z.min (i + size) (Z.of_nat (length B)) - i))
      with (Nat.min (Z.to_nat size) (length B - Z.to_nat i)) by lia.
    apply firstn_min_length. rewrite length_skipn. lia.
  - rewrite (Z.min_r i), (Z.min_r (i + size)) by lia.
    rewrite Z.sub_diag. simpl.
    rewrite (skipn_all2 B) by lia. now rewrite firstn_nil.
Qed.

Lemma range_len_ceil (n F : Z) :
  0 <= n -> 0 < F -> Py.range_len 0 n F = ceil_div n F.
Proof.
  intros Hn HF. unfold Py.range_len, ceil_div.
  destruct (Z.ltb_spec 0 F); [|lia].
  destruct (Z.leb_spec n 0).
  - assert (n = 0) by lia. subst n. symmetry. apply Z.div_small. lia.
  - replace (n + F - 1) with (n - 1 + 1 * F) by lia.
    rewrite Z.div_add by lia. f_equal. f_equal. lia.
Qed.

(** [ceil_div a b] is the least [q] with [a <= q * b]. *)
Lemma ceil_div_spec (a b : Z) :
  0 < b -> (ceil_div a b - 1) * b < a <= ceil_div a b * b.
Proof.
  intros Hb. unfold ceil_div.
  pose proof (Z.div_mod (a + b - 1) b ltac:(lia)) as E.
  pose proof (Z.mod_pos_bound (a + b - 1) b Hb) as Hm. nia.
Qed.

Lemma ceil_div_nonneg (a b : Z) : 0 <= a -> 0 < b -> 0 <= ceil_div a b.
Proof. intros. unfold ceil_div. apply Z.div_pos; lia. Qed.

(** For a positive size, [chunkify] yields the frames of [B] at the
    multiples of the size. *)
Lemma chunkify_frames (B : bytes) (F : Z) :
  0 < F ->
  chunkify B F =
    Ok (frames B (Z.to_nat F) (Z.to_nat (ceil_div (Py.len B) F))).
Proof.
  intros HF. unfold chunkify, Py.range.
  destruct (Z.eqb_spec F 0); [lia|].
  rewrite range_len_ceil by (unfold Py.len; lia).
  f_equal. unfold frames. rewrite map_map. apply map_ext.
  intros k. simpl. rewrite slice_span by lia. f_equal. lia.
Qed.

(** The number of fragments and the size, as natural numbers. *)
Lemma ceil_div_nat (len : nat) (F : Z) :
  0 < F ->
  let n := Z.to_nat (ceil_div (Z.of_nat len) F) in
  (len <= n * Z.to_nat F)%nat /\
  ((n = 0 /\ len = 0)%nat \/ (1 <= n /\ (n - 1) * Z.to_nat F < len)%nat).
Proof.
  intros HF n.
  pose proof (ceil_div_spec (Z.of_nat len) HF) as [Hlo Hhi].
  pose proof (@ceil_div_nonneg (Z.of_nat len) F ltac:(lia) HF) as H0.
  assert (En : Z.of_nat n = ceil_div (Z.of_nat len) F) by (unfold n; lia).
  rewrite <- En in Hlo, Hhi.
  assert (EF : Z.of_nat (Z.to_nat F) = F) by lia.
  rewrite <- EF in Hlo, Hhi.
  split; [nia|].
  destruct n as [|n']; [left; split; nia | right; split; nia].
Qed.

Lemma frames_full (A : Type) (B : list A) (F m : nat) :
  (m * F <= length B)%nat ->
  Forall (fun c => length c = F) (frames B F m).
Proof.
  intros Hm. apply Forall_forall. intros c Hc.
  unfold frames in Hc. apply in_map_iff in Hc as (k & <- & Hk).
  apply in_seq in Hk. rewrite length_span.
  assert (k * F + F <= m * F)%nat by nia. lia.
Qed.

Lemma frames_snoc (A : Type) (B : list A) (F m : nat) :
  frames B F (S m) = frames B F m ++ [span B (m * F) F].
Proof. unfold frames. now rewrite seq_S, map_app. Qed.

Lemma span_shrink (A : Type) (B : list A) (off F : nat) :
  span B off (length (span B off F)) = span B off F.
Proof.
  rewrite length_span. unfold span.
  apply firstn_min_length. rewrite length_skipn. lia.
Qed.

(** C1. For every buffer [B] and size [F > 0], [chunkify B F] yields
    fragments whose concatenation in yield order is [B], whose number is
    [ceil(len(B) / F)], and fragment [k] is the slice of [B] that starts
    where fragment [k - 1] ended (at [k * F]) and has the fragment's length:
    the fragments are consecutive and do not overlap. *)
Theorem chunkify_partition (B : bytes) (F : Z) (HF : 0 < F) :
  exists frags,
    chunkify B F = Ok frags /\
    concat frags = B /\
    Py.len frags = ceil_div (Py.len B) F /\
    forall k frag, nth_error frags k = Some frag ->
      offset_of frags k = (k * Z.to_nat F)%nat /\
      frag = span B (offset_of frags k) (length frag) /\
      frag = Py.slice B (Z.of_nat k * F) (Z.of_nat k * F + F).
Proof.
  pose proof (ceil_div_nat (length B) HF) as [Hhi Hlo]. simpl in Hhi, Hlo.
  pose proof (@ceil_div_nonneg (Py.len B) F ltac:(unfold Py.len; lia) HF).
  eexists. split; [apply (chunkify_frames B HF)|].
  unfold Py.len in *.
  set (n := Z.to_nat (ceil_div (Z.of_nat (length B)) F)) in *.
  set (Fn := Z.to_nat F) in *.
  split; [|split].
  - rewrite concat_frames. apply firstn_all2. exact Hhi.
  - rewrite length_frames. unfold n. lia.
  - intros k frag Hk.
    assert (Hkn : (k < n)%nat).
    { rewrite <- (length_frames B Fn n). apply nth_error_Some.
      now rewrite Hk. }
    rewrite nth_error_frames in Hk by assumption. injection Hk as <-.
    assert (Hoff : offset_of (frames B Fn n) k = (k * Fn)%nat).
    { unfold offset_of. rewrite firstn_frames by lia.
      rewrite concat_frames, length_firstn.
      destruct Hlo as [[? ?]|[? ?]]; [lia|].
      assert (k * Fn <= (n - 1) * Fn)%nat by nia. lia. }
    split; [exact Hoff|split].
    + rewrite Hoff. symmetry. apply span_shrink.
    + rewrite slice_span by lia. unfold Fn. f_equal. lia.
Qed.

Lemma chunkify_partition_witness :
  exists frags,
    chunkify [x01; x02; x03; x04; x05]%byte 2 = Ok frags /\
    concat frags = [x01; x02; x03; x04; x05]%byte /\
    Py.len frags = 3.
Proof.
  destruct (@chunkify_partition [x01; x02; x03; x04; x05]%byte 2 ltac:(lia))
    as (frags & H1 & H2 & H3 & _).
  exists frags. repeat split; assumption.
Defined.

Lemma Forall_le_of_eq (A : Type) (F : nat) (l : list (list A)) :
  Forall (fun c => length c = F) l -> Forall (fun c => (length c <= F)%nat) l.
Proof. apply Forall_impl. intros c ->. constructor. Qed.

(** C2. For every buffer [B] and size [F > 0], no fragment is longer than
    [F]; when [len(B) mod F] is not zero the fragments are full fragments
    followed by one last fragment of [len(B) mod F < F] bytes; when it is
    zero every fragment has exactly [F] bytes. *)
Theorem chunkify_lengths (B : bytes) (F : Z) (HF : 0 < F) :
  exists frags,
    chunkify B F = Ok frags /\
    Forall (fun c => Py.len c <= F) frags /\
    (Py.len B mod F <> 0 ->
       exists init last,
         frags = init ++ [last] /\
         Forall (fun c => Py.len c = F) init /\
         Py.len last = Py.len B mod F /\ Py.len last < F) /\
    (Py.len B mod F = 0 -> Forall (fun c => Py.len c = F) frags).
Proof.
  pose proof (ceil_div_nat (length B) HF) as [Hhi Hlo]. simpl in Hhi, Hlo.
  pose proof (ceil_div_spec (Py.len B) HF) as [Zlo Zhi].
  pose proof (@ceil_div_nonneg (Py.len B) F ltac:(unfold Py.len; lia) HF) as Z0.
  pose proof (Z.div_mod (Py.len B) F ltac:(lia)) as Edm.
  pose proof (Z.mod_pos_bound (Py.len B) F HF) as Hmod.
  eexists. split; [apply (chunkify_frames B HF)|].
  unfold Py.len in *.
  set (c := ceil_div (Z.of_nat (length B)) F) in *.
  set (n := Z.to_nat c) in *.
  set (Fn := Z.to_nat F) in *.
  assert (Hz : forall l : list (list byte),
             Forall (fun c => length c = Fn) l ->
             Forall (fun c => Z.of_nat (length c) = F) l).
  { intros l. apply Forall_impl. intros x Hx. rewrite Hx. unfold Fn. lia. }
  split; [|split].
  - apply Forall_forall. intros x Hx.
    unfold frames in Hx. apply in_map_iff in Hx as (k & <- & _).
    rewrite length_span. unfold Fn. lia.
  - intros Hne.
    destruct Hlo as [[Hn0 Hl0]|[Hn1 Hlast]].
    { rewrite Hl0 in Hne. simpl in Hne. now rewrite Z.mod_0_l in Hne by lia. }
    destruct n as [|m] eqn:En; [lia|].
    exists (frames B Fn m), (span B (m * Fn) Fn).
    replace (S m - 1)%nat with m in Hlast by lia.
    assert (Eq : Z.of_nat (length B) / F = Z.of_nat m).
    { assert (Hc : c = Z.of_nat (S m)) by lia.
      symmetry. apply Z.div_unique with (r := Z.of_nat (length B) - F * Z.of_nat m).
      - left. split; [unfold Fn in Hlast; nia|].
        assert (Z.of_nat (length B) <> c * F) by (intros E; apply Hne; rewrite E; apply Z.mod_mul; lia).
        nia.
      - lia. }
    split; [apply frames_snoc|split; [|split]].
    + apply Hz, frames_full. lia.
    + rewrite length_span. rewrite Eq in Edm. unfold Fn. nia.
    + rewrite length_span. unfold Fn. nia.
  - intros H0. apply Hz, frames_full.
    rewrite H0 in Edm.
    assert (Ec : c = Z.of_nat (length B) / F) by nia.
    unfold Fn. nia.
Qed.

Lemma chunkify_lengths_witness :
  exists frags,
    chunkify [x01; x02; x03; x04; x05]%byte 2 = Ok frags /\
    Forall (fun c => Py.len c <= 2) frags.
Proof.
  destruct (@chunkify_lengths [x01; x02; x03; x04; x05]%byte 2 ltac:(lia))
    as (frags & H1 & H2 & _).
  exists frags. split; assumption.
Defined.

Example chunkify_5_by_2 :
  chunkify [x01; x02; x03; x04; x05]%byte 2
  = Ok [[x01; x02]; [x03; x04]; [x05]]%byte.
Proof. reflexivity. Qed.

Example chunkify_4_by_2 :
  chunkify [x01; x02; x03; x04]%byte 2 = Ok [[x01; x02]; [x03; x04]]%byte.
Proof. reflexivity. Qed.

Example chunkify_empty : chunkify [] 20 = Ok [].
Proof. reflexivity. Qed.

Lemma chunkify_zero (B : bytes) :
  chunkify B 0 = Raise (ValueError "range() arg 3 must not be zero").
Proof. reflexivity. Qed.

Lemma chunkify_negative (B : bytes) (F : Z) : F < 0 -> chunkify B F = Ok [].
Proof.
  intros HF. unfold chunkify, Py.range, Py.range_len, Py.len.
  destruct (Z.eqb_spec F 0); [lia|].
  destruct (Z.ltb_spec 0 F); [lia|].
  destruct (Z.leb_spec 0 (Z.of_nat (length B))); [|lia].
  reflexivity.
Qed.

(** C9. Outside [F > 0] the guarantees of [chunkify] are lost: with size
    [0] iterating it raises for every buffer; with a negative size and a
    non-empty buffer it yields no fragment at all; so for [F <= 0] and a
    non-empty buffer no run of [chunkify] yields fragments whose
    concatenation is the buffer. *)
Theorem chunkify_needs_positive_size :
  (forall B : bytes, exists msg, chunkify B 0 = Raise (ValueError msg)) /\
  (forall (B : bytes) (F : Z), F < 0 -> B <> [] -> chunkify B F = Ok []) /\
  (forall (B : bytes) (F : Z), F <= 0 -> B <> [] ->
     ~ (exists frags, chunkify B F = Ok frags /\ concat frags = B)).
Proof.
  split; [|split].
  - intros B. eexists. apply chunkify_zero.
  - intros B F HF _. now apply chunkify_negative.
  - intros B F HF HB (frags & Hc & Hcat).
    destruct (Z.eq_dec F 0) as [->|Hne].
    + rewrite chunkify_zero in Hc. discriminate.
    + rewrite chunkify_negative in Hc by lia.
      injection Hc as <-. simpl in Hcat. congruence.
Qed.

Lemma chunkify_needs_positive_size_witness :
  (-3 < 0 /\ [x01; x02]%byte <> []) /\
  chunkify [x01; x02]%byte (-3) = Ok [] /\
  ~ (exists frags,
        chunkify [x01; x02]%byte (-3) = Ok frags /\
        concat frags = [x01; x02]%byte).
Proof.
  assert (H1 : -3 < 0) by lia.
  assert (H2 : [x01; x02]%byte <> []) by discriminate.
  destruct chunkify_needs_positive_size as (_ & Hneg & Hno).
  split; [split; assumption|].
  split; [apply Hneg; assumption | apply Hno; [lia | assumption]].
Defined.

(** ** Scanning *)

Lemma scan_unfold (w : World) (name : option string) (timeout : Z)
    (tr : list event) :
  let autodiscover := negb (Str.truthy name) in
  let msg := if autodiscover then MsgAutoDiscovering else MsgSearching name in
  let tr1 := (tr ++ [Log INFO msg]) ++ [Scan timeout] in
  scan w name timeout tr =
    match find (fun da => matches autodiscover name (fst da) (snd da))
               (w.(advertisements) timeout) with
    | None => (tr1, Raise not_found)
    | Some da => (tr1 ++ [Log INFO (MsgFound (fst da))], Ok (fst da))
    end.
Proof.
  unfold scan, find_device_by_filter, bind, log, emit, ret, raise. simpl.
  destruct (find _ _) as [[d a]|]; reflexivity.
Qed.



Lemma find_first (A : Type) (f : A -> bool) (pre post : list A) (x : A) :
  (forall y, In y pre -> f y = false) -> f x = true ->
  find f (pre ++ x :: post) = Some x.
Proof.
  intros Hpre Hx. induction pre as [|y pre IH]; simpl.
  - now rewrite Hx.
  - rewrite (Hpre y (or_introl eq_refl)). apply IH.
    intros z Hz. apply Hpre. now right.
Qed.


(** [scan] returns the first advertisement that matches. *)
Lemma scan_first_match (w : World) (name : option string) (timeout : Z)
    (tr : list event) (d : BLEDevice) (a : AdvertisementData) :
  find (fun da => matches (negb (Str.truthy name)) name (fst da) (snd da))
       (w.(advertisements) timeout) = Some (d, a) ->
  snd (scan w name timeout tr) = Ok d.
Proof. intros Hf. rewrite scan_unfold. cbv zeta. now rewrite Hf. Qed.


Example scan_finds_printer :
  scan Demo.nearby None 10 [] =
    ([Log INFO MsgAutoDiscovering; Scan 10; Log INFO (MsgFound Demo.printer)],
     Ok Demo.printer).
Proof. reflexivity. Qed.

Example scan_by_name :
  snd (scan Demo.nearby (Some "GT01") 10 []) = Ok Demo.printer /\
  snd (scan Demo.nearby (Some "gt01") 10 []) = Raise not_found.
Proof. split; reflexivity. Qed.

(** ** Address resolution and the failure path of [run_ble] *)

Lemma scan_quiet (w : World) (name : option string) (timeout : Z)
    (tr : list event) :
  exists es, fst (scan w name timeout tr) = tr ++ es /\ quiet es.
Proof.
  rewrite scan_unfold. cbv zeta.
  destruct (find _ _) as [da|], (Str.truthy name);
    simpl; rewrite <- !app_assoc; simpl;
    eexists; (split; [reflexivity|]); repeat constructor.
Qed.

Lemma get_device_address_quiet (w : World) (device : option string)
    (tr : list event) :
  exists es, fst (get_device_address w device tr) = tr ++ es /\ quiet es.
Proof.
  assert (Hs : exists es,
             fst ((d <- scan w device SCAN_TIMEOUT_S ;; ret (AddrDev d)) tr)
             = tr ++ es /\ quiet es).
  { destruct (scan_quiet w device SCAN_TIMEOUT_S tr) as (es & E & Q).
    exists es. split; [|exact Q]. unfold bind, ret.
    destruct (scan w device SCAN_TIMEOUT_S tr) as [tr' [d|e]]; exact E. }
  assert (Hnil : exists es, tr = tr ++ es /\ quiet es).
  { exists []. split; [now rewrite app_nil_r|constructor]. }
  unfold get_device_address.
  destruct device as [[|c dev]|]; try exact Hs.
  unfold bind at 1, lift, suppress_ValueError.
  destruct (uuid.UUID (String c dev)) as [u|[m|m|m]]; try exact Hnil.
  destruct (_ && _); [exact Hnil|exact Hs].
Qed.

(** When the resolution raises a [RuntimeError], [run_ble] logs it and
    returns. *)
Lemma run_ble_caught (w : World) (device : option string) (tr : list event)
    (msg : string) :
  get_device_address w device [] = (tr, Raise (RuntimeError msg)) ->
  run_ble w device [] = (tr ++ [Log ERROR (MsgStop (RuntimeError msg))], Ok tt).
Proof.
  intros H. unfold run_ble, try_RuntimeError, bind at 1.
  unfold bind at 1. rewrite H. reflexivity.
Qed.

Lemma console_error_visible (c : LogChoice) (tr : list event) (m : Message) :
  In (Log ERROR m) tr -> In m (console (logging_level c) tr).
Proof.
  intros H. unfold console. apply in_flat_map.
  exists (Log ERROR m). split; [assumption|].
  destruct c; simpl; auto.
Qed.

(** C7. When the resolution of the device fails with printer-not-found,
    [run_ble] stops right after logging the error: the message reaches the
    console at every log level, and the trace of the whole run holds no
    connection, no negotiation, no write (preamble, fragment or flush) and
    no disconnection. *)
Theorem run_ble_not_found_aborts (w : World) (device : option string)
    (tr : list event)
    (Hnf : get_device_address w device [] = (tr, Raise not_found)) :
  let final := tr ++ [Log ERROR (MsgStop not_found)] in
  run_ble w device [] = (final, Ok tt) /\
  quiet final /\
  sites final = [] /\
  forall c : LogChoice, In (MsgStop not_found) (console (logging_level c) final).
Proof.
  intros final.
  assert (Hq : quiet final).
  { destruct (get_device_address_quiet w device []) as (es & E & Q).
    rewrite Hnf in E. simpl in E. subst tr. unfold final.
    apply Forall_app. split; [exact Q|repeat constructor]. }
  split; [|split; [|split]].
  - unfold not_found in Hnf. now rewrite (run_ble_caught _ _ Hnf).
  - exact Hq.
  - unfold sites, writes. clear -Hq. induction Hq as [|e es [He _] _ IH].
    + reflexivity.
    + simpl. rewrite map_app, IH. destruct e; try reflexivity; discriminate.
  - intros c. apply console_error_visible. unfold final.
    apply in_or_app. right. now left.
Qed.

Lemma run_ble_not_found_aborts_witness :
  get_device_address Demo.absent (Some "GT01") [] =
    ([Log INFO (MsgSearching (Some "GT01")); Scan 10], Raise not_found) /\
  fst (run_ble Demo.absent (Some "GT01") []) =
    [Log INFO (MsgSearching (Some "GT01")); Scan 10;
     Log ERROR (MsgStop not_found)].
Proof.
  assert (H : get_device_address Demo.absent (Some "GT01") [] =
              ([Log INFO (MsgSearching (Some "GT01")); Scan 10],
               Raise not_found)) by reflexivity.
  split; [exact H|].
  exact (f_equal fst (proj1 (run_ble_not_found_aborts _ _ H))).
Defined.

(** C10. When the resolution of the device raises printer-not-found,
    [run_ble] catches the error, logs it as its last action and returns
    normally; and there is a run of [main] in which the resolution fails
    and [main] completes without raising. *)
Theorem run_ble_swallows_not_found :
  (forall (w : World) (device : option string) (tr : list event),
     get_device_address w device [] = (tr, Raise not_found) ->
     run_ble w device [] = (tr ++ [Log ERROR (MsgStop not_found)], Ok tt)) /\
  (exists (w : World) (args : Args),
     snd (get_device_address w (Some args.(device)) []) = Raise not_found /\
     snd (main w args) = Ok tt).
Proof.
  split.
  - intros w device tr H. exact (run_ble_caught _ _ H).
  - exists Demo.absent, {| log_level := info; device := "" |}.
    split; reflexivity.
Qed.

Lemma run_ble_swallows_not_found_witness :
  run_ble Demo.absent (Some "") [] =
    ([Log INFO MsgAutoDiscovering; Scan 10; Log ERROR (MsgStop not_found)],
     Ok tt).
Proof.
  exact (proj1 run_ble_swallows_not_found Demo.absent (Some "")
           [Log INFO MsgAutoDiscovering; Scan 10] eq_refl).
Defined.

(** ** The session: what is written, and in which order *)

Lemma writes_app (a b : list event) : writes (a ++ b) = writes a ++ writes b.
Proof. apply flat_map_app. Qed.

Lemma rendered_app (a b : list event) :
  rendered (a ++ b) = rendered a ++ rendered b.
Proof. apply flat_map_app. Qed.

Lemma quiet_writes (es : list event) : quiet es -> writes es = [].
Proof.
  induction 1 as [|e es [He _] _ IH]; [reflexivity|].
  simpl. rewrite IH. destruct e; try reflexivity; discriminate.
Qed.

Lemma quiet_rendered (es : list event) : quiet es -> rendered es = [].
Proof.
  induction 1 as [|e es [_ He] _ IH]; [reflexivity|].
  change (e :: es) with ([e] ++ es). now rewrite rendered_app, He, IH.
Qed.

Lemma quiet_app (a b : list event) : quiet a -> quiet b -> quiet (a ++ b).
Proof. intros Ha Hb. apply Forall_app. now split. Qed.

Lemma emit_all_trace (es tr : list event) : emit_all es tr = (tr ++ es, Ok tt).
Proof.
  revert tr. induction es as [|e es IH]; intros tr; simpl.
  - unfold ret. now rewrite app_nil_r.
  - unfold bind, emit. rewrite IH, <- app_assoc. reflexivity.
Qed.

Lemma write_gatt_char_cases (w : World) (site : Site) (u : string)
    (data : bytes) (tr : list event) :
  write_gatt_char w site u data tr = (tr ++ [Write site u data], Ok tt) \/
  exists e, write_gatt_char w site u data tr = (tr, Raise e).
Proof.
  unfold write_gatt_char. destruct (write_ok w _); [now left|right; eauto].
Qed.

(** Rendering does not depend on what happened before, writes nothing to
    the printer, and logs the text once. *)
Lemma text_to_image_obs (w : World) (text : string) (tr : list event) :
  exists es,
    text_to_image w text tr = (tr ++ es, render w text) /\
    writes es = [] /\ rendered es = [text].
Proof.
  unfold render, text_to_image, text_to_image_with, magick_text. simpl.
  unfold bind, log, emit, ret, raise. simpl.
  destruct (negb _).
  - eexists. rewrite <- !app_assoc. simpl. split; [reflexivity|]. split; reflexivity.
  - destruct (imdecode w _).
    + eexists. rewrite <- !app_assoc. simpl. split; [reflexivity|]. split; reflexivity.
    + eexists. rewrite <- !app_assoc. simpl. split; [reflexivity|]. split; reflexivity.
Qed.

(** The fragments of one job are written in order; a failed write stops
    the job after the fragments already written. *)
Lemma for_each_chunk_obs (w : World) (chunks : list bytes) (tr : list event) :
  exists k es r,
    for_each chunks (fun chunk =>
      write_gatt_char w AtChunk TX_CHARACTERISTIC_UUID chunk ;;
      emit (Sleep WAIT_AFTER_EACH_CHUNK_S)) tr = (tr ++ es, r) /\
    (k <= List.length chunks)%nat /\
    writes es = chunk_writes (firstn k chunks) /\ rendered es = [] /\
    (r = Ok tt -> k = List.length chunks).
Proof.
  revert tr. induction chunks as [|c chunks IH]; intros tr.
  - exists 0%nat, [], (Ok tt). simpl. unfold ret. rewrite app_nil_r.
    repeat split; auto.
  - simpl. unfold bind at 1. unfold bind at 1.
    destruct (write_gatt_char_cases w AtChunk TX_CHARACTERISTIC_UUID c tr)
      as [E|[e E]]; rewrite E.
    + unfold emit at 1.
      destruct (IH ((tr ++ [Write AtChunk TX_CHARACTERISTIC_UUID c])
                      ++ [Sleep WAIT_AFTER_EACH_CHUNK_S]))
        as (k & es & r & Ht & Hk & Hw & Hr & Hok).
      exists (S k), (Write AtChunk TX_CHARACTERISTIC_UUID c
                       :: Sleep WAIT_AFTER_EACH_CHUNK_S :: es), r.
      split; [|split; [|split; [|split]]].
      * rewrite Ht, <- !app_assoc. reflexivity.
      * simpl. lia.
      * simpl. now rewrite Hw.
      * simpl. exact Hr.
      * intros H. simpl. f_equal. now apply Hok.
    + exists 0%nat, [], (Raise e). rewrite app_nil_r.
      split; [reflexivity|]. split; [simpl; lia|]. split; [reflexivity|].
      split; [reflexivity|]. discriminate.
Qed.

(** One turn of the loop: a blank text does nothing; any other text is
    rendered once and only fragments are written, all those of
    [chunkify] when the turn ends normally. *)
Lemma print_text_obs (w : World) (cs : Z) (text : string) (tr : list event) :
  exists es r fs,
    print_text w cs text tr = (tr ++ es, r) /\
    writes es = chunk_writes fs /\
    rendered es = nonblank [text] /\
    (exists rest, flat_map (fragments_of w cs) (nonblank [text]) = fs ++ rest) /\
    (r = Ok tt ->
       fs = flat_map (fragments_of w cs) (nonblank [text]) /\
       renders_all w cs (nonblank [text])).
Proof.
  destruct text as [|c text].
  - exists [], (Ok tt), []. simpl. unfold ret. rewrite app_nil_r.
    split; [reflexivity|]. split; [reflexivity|]. split; [reflexivity|].
    split; [now exists []|]. intros _. split; constructor.
  - unfold print_text.
    set (t := String c text).
    unfold bind at 1.
    destruct (text_to_image_obs w t tr) as (es1 & E1 & W1 & R1). rewrite E1.
    assert (Hjob : forall fs, job_fragments w cs t = Ok fs ->
              fs = flat_map (fragments_of w cs) (nonblank [t]) /\
              renders_all w cs (nonblank [t])).
    { intros fs Hfs. simpl. unfold fragments_of. rewrite Hfs, app_nil_r.
      split; [reflexivity|]. repeat constructor. eauto. }
    unfold job_fragments in Hjob.
    destruct (render w t) as [img|e].
    + unfold bind at 1, log. unfold emit at 1. unfold bind at 1, lift.
      destruct (chunkify _ cs) as [chunks|e] eqn:Ec.
      * destruct (for_each_chunk_obs w chunks
                    ((tr ++ es1) ++ [Log DEBUG (MsgPrinting
                       (Py.len (cmds_print_img w img (negb (stdin_isatty w))))
                       (snd (shape img)) (fst (shape img)))]))
          as (k & es2 & r & E2 & Hk & W2 & R2 & Hok).
        rewrite E2. eexists _, r, (firstn k chunks).
        split; [rewrite <- !app_assoc; reflexivity|].
        split; [|split; [|split]].
        -- rewrite !writes_app, W1, W2. reflexivity.
        -- rewrite !rendered_app, R1, R2. reflexivity.
        -- exists (skipn k chunks).
           rewrite <- (proj1 (Hjob chunks eq_refl)). now rewrite firstn_skipn.
        -- intros Hr. rewrite (Hok Hr), firstn_all. now apply Hjob.
      * eexists _, (Raise e), [].
        split; [rewrite <- !app_assoc; reflexivity|].
        split; [|split; [|split]].
        -- rewrite !writes_app, W1. reflexivity.
        -- rewrite !rendered_app, R1. reflexivity.
        -- eexists. reflexivity.
        -- discriminate.
    + exists es1, (Raise e), [].
      split; [reflexivity|]. split; [exact W1|]. split; [exact R1|].
      split; [eexists; reflexivity|discriminate].
Qed.

Lemma get_input_lines_console_only (w : World) :
  console_only (get_input_lines w).
Proof.
  unfold get_input_lines. destruct (negb _).
  - induction (stdin_lines w) as [|l ls IH]; simpl.
    + split; [constructor|reflexivity].
    + split; [constructor|]. split; [reflexivity|exact IH].
  - assert (H : forall typed pending,
               quiet pending -> rendered pending = [] ->
               console_only (interactive_lines typed pending)).
    { induction typed as [|l ls IH]; intros pending Q R; simpl.
      - split.
        + apply Forall_app. split; [exact Q|repeat constructor].
        + rewrite rendered_app, R. reflexivity.
      - assert (Q' : quiet (pending ++ [Prompt "> "])).
        { apply Forall_app. split; [exact Q|repeat constructor]. }
        assert (R' : rendered (pending ++ [Prompt "> "]) = []).
        { rewrite rendered_app, R. reflexivity. }
        destruct (Str.strip l) as [|c s].
        + now apply IH.
        + destruct (_ || _).
          * split; assumption.
          * cbn [console_only].
            split; [exact Q'|]. split; [exact R'|].
            apply IH; constructor. }
    apply H; repeat constructor.
Qed.

Lemma nonblank_cons (x : string) (l : list string) :
  nonblank (x :: l) = nonblank [x] ++ nonblank l.
Proof. unfold nonblank. simpl. destruct x; reflexivity. Qed.

(** The loop over the input lines: only fragments are written; the texts
    rendered are the first non-blank lines; when the loop ends normally
    they are all the non-blank lines, and what was written is the
    fragments of their jobs, job after job. *)
Lemma for_gen_obs (w : World) (cs : Z) (g : gen string) (tr : list event) :
  console_only g ->
  exists es r fs,
    for_gen g (print_text w cs) tr = (tr ++ es, r) /\
    writes es = chunk_writes fs /\
    (exists rest, nonblank (yields g) = rendered es ++ rest) /\
    (exists rest,
       flat_map (fragments_of w cs) (nonblank (yields g)) = fs ++ rest) /\
    (r = Ok tt ->
       rendered es = nonblank (yields g) /\
       fs = flat_map (fragments_of w cs) (nonblank (yields g)) /\
       renders_all w cs (nonblank (yields g))).
Proof.
  revert tr. induction g as [pre|pre x rest IH]; intros tr Hc.
  - destruct Hc as [Q R]. simpl. rewrite emit_all_trace.
    exists pre, (Ok tt), [].
    split; [reflexivity|]. split; [now apply quiet_writes|].
    split; [exists []; now rewrite R|]. split; [now exists []|].
    intros _. split; [exact R|]. split; [reflexivity|constructor].
  - destruct Hc as (Q & R & Hc). cbn [for_gen yields].
    rewrite nonblank_cons, flat_map_app.
    unfold bind at 1. rewrite emit_all_trace.
    unfold bind at 1.
    destruct (print_text_obs w cs x (tr ++ pre))
      as (es1 & r1 & fs1 & E1 & W1 & R1 & (rest1 & P1) & Hok1).
    rewrite E1. destruct r1 as [[]|e].
    + destruct (IH ((tr ++ pre) ++ es1) Hc)
        as (es2 & r2 & fs2 & E2 & W2 & (rest2 & P2) & (rest3 & P3) & Hok2).
      rewrite E2. destruct (Hok1 eq_refl) as [F1 A1].
      exists (pre ++ es1 ++ es2), r2, (fs1 ++ fs2).
      split; [now rewrite <- !app_assoc|].
      split; [|split; [|split]].
      * rewrite !writes_app, (quiet_writes Q), W1, W2.
        unfold chunk_writes. now rewrite map_app.
      * exists rest2. rewrite !rendered_app, R, R1, P2. simpl.
        now rewrite <- app_assoc.
      * exists rest3. rewrite P3, <- F1. now rewrite <- app_assoc.
      * intros Hr. destruct (Hok2 Hr) as (R2 & F2 & A2).
        split; [|split].
        -- rewrite !rendered_app, R, R1, R2. reflexivity.
        -- rewrite F1, F2. reflexivity.
        -- apply Forall_app. split; assumption.
    + exists (pre ++ es1), (Raise e), fs1.
      split; [now rewrite <- !app_assoc|].
      split; [|split; [|split]].
      * rewrite !writes_app, (quiet_writes Q), W1. reflexivity.
      * rewrite !rendered_app, R, R1. simpl. eauto.
      * rewrite P1, <- app_assoc. eauto.
      * discriminate.
Qed.

(** The session as a whole.  Either nothing was written (the negotiation
    or the first write failed), or the preamble was written first, then
    fragments of the jobs in order, then possibly the flush; the flush is
    there exactly when the session ends normally, and then every job was
    written in full. *)
Lemma session_obs (w : World) (client : Client) (tr : list event) :
  let texts := nonblank (yields (get_input_lines w)) in
  exists es r,
    session w client tr = (tr ++ es, r) /\
    (exists rest, texts = rendered es ++ rest) /\
    ((writes es = [] /\ r <> Ok tt) \/
     exists client' fs rest (flushed : bool),
       negotiated w client = Ok client' /\
       writes es = (AtPrepare, w.(prepare)) :: chunk_writes fs
                     ++ (if flushed then [(AtFinish, w.(finish))] else []) /\
       flat_map (fragments_of w (client'.(mtu_size) - 3)) texts = fs ++ rest /\
       (r = Ok tt <-> flushed = true) /\
       (flushed = true ->
          rest = [] /\ rendered es = texts /\
          renders_all w (client'.(mtu_size) - 3) texts)).
Proof.
  intros texts. unfold session, negotiated.
  set (pre := if is_bluez client then [AcquireMtu] else []).
  assert (Hneg :
    (if is_bluez client
     then emit AcquireMtu;; lift (acquire_mtu w client)
     else ret client) tr
    = (tr ++ pre,
       if is_bluez client then acquire_mtu w client else Ok client)).
  { unfold pre. destruct (is_bluez client).
    - unfold bind, emit, lift. reflexivity.
    - unfold ret. now rewrite app_nil_r. }
  unfold bind at 1. rewrite Hneg.
  assert (Qpre : writes pre = [] /\ rendered pre = []).
  { unfold pre. destruct (is_bluez client); split; reflexivity. }
  destruct Qpre as [Wpre Rpre].
  destruct (if is_bluez client then acquire_mtu w client else Ok client)
    as [client'|e].
  2:{ exists pre, (Raise e). split; [reflexivity|].
      split; [exists texts; now rewrite Rpre|].
      left. split; [exact Wpre|discriminate]. }
  unfold bind at 1, log. unfold emit at 1.
  set (tr1 := (tr ++ pre) ++ [Log INFO (MsgConnected (mtu_size client'))]).
  unfold bind at 1.
  destruct (write_gatt_char_cases w AtPrepare TX_CHARACTERISTIC_UUID
              (prepare w) tr1) as [E|[e E]]; rewrite E.
  2:{ exists (pre ++ [Log INFO (MsgConnected (mtu_size client'))]), (Raise e).
      split; [unfold tr1; now rewrite <- app_assoc|].
      split; [exists texts; now rewrite rendered_app, Rpre|].
      left. split; [now rewrite writes_app, Wpre|discriminate]. }
  set (tr2 := tr1 ++ [Write AtPrepare TX_CHARACTERISTIC_UUID (prepare w)]).
  unfold bind at 1.
  destruct (@for_gen_obs w (mtu_size client' - 3) _ tr2
              (get_input_lines_console_only w))
    as (es & r & fs & El & Wl & (rest1 & P1) & (rest2 & P2) & Hok).
  rewrite El.
  assert (Etr : forall tail, (tr2 ++ es) ++ tail =
     tr ++ (pre ++ [Log INFO (MsgConnected (mtu_size client'));
                    Write AtPrepare TX_CHARACTERISTIC_UUID (prepare w)]
                ++ es ++ tail)).
  { intros tail. unfold tr2, tr1. rewrite <- !app_assoc. reflexivity. }
  destruct r as [[]|e].
  - destruct (Hok eq_refl) as (Rl & Fl & Al).
    unfold bind at 1.
    destruct (write_gatt_char_cases w AtFinish TX_CHARACTERISTIC_UUID
                (finish w) (tr2 ++ es)) as [Ef|[e Ef]]; rewrite Ef.
    + unfold emit. eexists _, (Ok tt).
      split; [rewrite <- app_assoc; apply f_equal2; [apply Etr|reflexivity]|].
      split.
      { exists []. rewrite !rendered_app, Rpre, Rl. simpl.
        now rewrite !app_nil_r. }
      right. exists client', fs, [], true.
      split; [reflexivity|]. split; [|split; [|split]].
      * rewrite !writes_app, Wpre, Wl. reflexivity.
      * rewrite app_nil_r. now symmetry.
      * split; reflexivity.
      * intros _. split; [reflexivity|]. split; [|exact Al].
        rewrite !rendered_app, Rpre, Rl. simpl. now rewrite app_nil_r.
    + eexists _, (Raise e).
      split; [rewrite <- (app_nil_r (tr2 ++ es));
              apply f_equal2; [apply Etr|reflexivity]|].
      split.
      { exists []. rewrite !rendered_app, Rpre, Rl. simpl.
        now rewrite !app_nil_r. }
      right. exists client', fs, rest2, false.
      split; [reflexivity|]. split; [|split; [|split]].
      * rewrite !writes_app, Wpre, Wl. reflexivity.
      * exact P2.
      * split; discriminate.
      * discriminate.
  - eexists _, (Raise e).
    split; [rewrite <- (app_nil_r (tr2 ++ es));
            apply f_equal2; [apply Etr|reflexivity]|].
    split.
    { exists rest1. rewrite !rendered_app, Rpre. simpl.
      now rewrite app_nil_r. }
    right. exists client', fs, rest2, false.
    split; [reflexivity|]. split; [|split; [|split]].
    * rewrite !writes_app, Wpre, Wl. reflexivity.
    * exact P2.
    * split; discriminate.
    * discriminate.
Qed.

(** A whole run.  Either nothing was written to the printer, or the device
    was resolved and connected and the session wrote the preamble, then
    fragments, then possibly the flush. *)
Lemma run_ble_obs (w : World) (device : option string) :
  let texts := nonblank (yields (get_input_lines w)) in
  exists tr r,
    run_ble w device [] = (tr, r) /\
    (exists rest, texts = rendered tr ++ rest) /\
    (writes tr = [] \/
     exists a client client' fs rest (flushed : bool),
       snd (get_device_address w device []) = Ok a /\
       w.(connect) a = Ok client /\
       negotiated w client = Ok client' /\
       writes tr = (AtPrepare, w.(prepare)) :: chunk_writes fs
                     ++ (if flushed then [(AtFinish, w.(finish))] else []) /\
       flat_map (fragments_of w (client'.(mtu_size) - 3)) texts = fs ++ rest /\
       (r = Ok tt <-> flushed = true) /\
       (flushed = true ->
          rest = [] /\ rendered tr = texts /\
          renders_all w (client'.(mtu_size) - 3) texts)).
Proof.
  intros texts.
  destruct (get_device_address_quiet w device []) as (es0 & E0 & Q0).
  simpl in E0.
  unfold run_ble, try_RuntimeError. unfold bind at 1. unfold bind at 1.
  destruct (get_device_address w device []) as [tr0 [a|e]] eqn:Eg;
    simpl in E0; subst tr0.
  - unfold ret at 1. unfold bind at 1, log. unfold emit at 1.
    unfold with_client.
    destruct (connect w a) as [client|e] eqn:Ec.
    + destruct (session_obs w client
                  ((es0 ++ [Log INFO (MsgConnecting a)]) ++ [Connect a]))
        as (es & r & Es & (rest1 & P1) & Hs).
      rewrite Es.
      assert (Wt : forall tail, writes tail = [] ->
                writes ((((es0 ++ [Log INFO (MsgConnecting a)]) ++ [Connect a])
                          ++ es) ++ tail) = writes es).
      { intros tail Ht. rewrite !writes_app, (quiet_writes Q0), Ht. simpl.
        now rewrite app_nil_r. }
      assert (Rt : forall tail, rendered tail = [] ->
                rendered ((((es0 ++ [Log INFO (MsgConnecting a)]) ++ [Connect a])
                            ++ es) ++ tail) = rendered es).
      { intros tail Ht. rewrite !rendered_app, (quiet_rendered Q0), Ht. simpl.
        now rewrite app_nil_r. }
      eexists _, r. split; [reflexivity|].
      rewrite (Wt [Disconnect] eq_refl), (Rt [Disconnect] eq_refl).
      split; [now exists rest1|].
      destruct Hs as [[Hw _]|(client' & fs & rest & flushed & Hs)].
      * now left.
      * right. exists a, client, client', fs, rest, flushed.
        split; [reflexivity|]. split; [exact Ec|]. exact Hs.
    + eexists _, (Raise e). split; [reflexivity|].
      split.
      * exists texts. rewrite rendered_app, (quiet_rendered Q0). reflexivity.
      * left. rewrite writes_app, (quiet_writes Q0). reflexivity.
  - assert (Hw : forall tail, quiet tail -> writes (es0 ++ tail) = [] /\
                   exists rest, texts = rendered (es0 ++ tail) ++ rest).
    { intros tail Qt. split.
      - now rewrite writes_app, (quiet_writes Q0), (quiet_writes Qt).
      - exists texts.
        now rewrite rendered_app, (quiet_rendered Q0), (quiet_rendered Qt). }
    destruct e as [m|m|m].
    + eexists _, _. split; [reflexivity|].
      destruct (Hw [] ltac:(constructor)) as [H1 H2].
      rewrite app_nil_r in H1, H2. split; [exact H2|now left].
    + unfold bind at 1, log. unfold emit at 1. unfold ret.
      eexists _, _. split; [reflexivity|].
      destruct (Hw [Log ERROR (MsgStop (RuntimeError m))]
                  ltac:(repeat constructor)) as [H1 H2].
      split; [exact H2|now left].
    + eexists _, _. split; [reflexivity|].
      destruct (Hw [] ltac:(constructor)) as [H1 H2].
      rewrite app_nil_r in H1, H2. split; [exact H2|now left].
Qed.

Lemma sites_chunk_writes (fs : list bytes) :
  map fst (chunk_writes fs) = repeat AtChunk (List.length fs).
Proof.
  unfold chunk_writes. induction fs as [|f fs IH]; simpl; [|rewrite IH];
    reflexivity.
Qed.

Example render_failure_skips_flush :
  run_ble Demo.unrendered (Some "AA:BB:CC:DD:EE:FF") [] =
    ([Log INFO (MsgConnecting (AddrStr "AA:BB:CC:DD:EE:FF"));
      Connect (AddrStr "AA:BB:CC:DD:EE:FF");
      AcquireMtu;
      Log INFO (MsgConnected 8);
      Write AtPrepare TX_CHARACTERISTIC_UUID [x51; x78]%byte;
      Log DEBUG (MsgRendering "hello");
      Popen ["magick"; "-background"; "white"; "-fill"; "black"; "-size";
             "384x"; "-font"; "FreeMono"; "-weight"; "700"; "-stroke";
             "black"; "-strokewidth"; "1"; "-pointsize"; "22"; "caption:@-";
             "pbm:-"] (Str.encode "hello");
      Disconnect],
     Raise (RuntimeError "ImageMagick failed: ")).
Proof. reflexivity. Qed.

Example empty_input_still_flushes :
  writes (fst (run_ble Demo.wordless None [])) =
    [(AtPrepare, [x51; x78]%byte); (AtFinish, [xff]%byte)] /\
  snd (run_ble Demo.wordless None []) = Ok tt.
Proof. split; reflexivity. Qed.

(** C4, as stated, fails: in a run that wrote the preamble and whose
    renderer then fails on the first line, the flush is never written. *)
Lemma flush_missing_after_render_failure :
  let tr := fst (run_ble Demo.unrendered (Some "AA:BB:CC:DD:EE:FF") []) in
  reaches_streaming tr /\
  ~ flushed_after_jobs Demo.unrendered tr /\
  ~ In AtFinish (sites tr).
Proof.
  rewrite render_failure_skips_flush. cbv zeta.
  split; [|split].
  - left. reflexivity.
  - intros [fs H]. simpl in H. injection H as H.
    destruct fs; discriminate.
  - simpl. intros [H|[]]. discriminate.
Qed.

(** C4, amended.  In every run the writes are in order: nothing at all; or
    the preamble first, then fragments only, then at most one flush, which
    is last.  In every run that wrote the preamble and ends without an
    error, the flush is written exactly once, after all the fragments; so
    also when no print job was produced, where the writes are the preamble
    and the flush alone. *)
Theorem run_ble_write_order (w : World) (device : option string) :
  let tr := fst (run_ble w device []) in
  let r := snd (run_ble w device []) in
  (writes tr = [] \/
   exists fs (flushed : bool),
     writes tr = (AtPrepare, w.(prepare)) :: chunk_writes fs
                   ++ (if flushed then [(AtFinish, w.(finish))] else [])) /\
  (reaches_streaming tr -> r = Ok tt -> flushed_after_jobs w tr) /\
  (reaches_streaming tr -> r = Ok tt -> rendered tr = [] ->
     writes tr = [(AtPrepare, w.(prepare)); (AtFinish, w.(finish))]).
Proof.
  destruct (run_ble_obs w device) as (tr & r & E & _ & H).
  rewrite E. cbv zeta. simpl fst. simpl snd.
  destruct H as [H0|(a & c & c' & fs & rest & flushed & _ & _ & _ & Hw & Hf & Hr & Hfl)].
  - split; [now left|]. unfold reaches_streaming, sites.
    rewrite H0. split; intros [].
  - split; [right; now exists fs, flushed|].
    split.
    + intros _ Hok. apply Hr in Hok. subst flushed. now exists fs.
    + intros _ Hok Hrend. apply Hr in Hok. subst flushed.
      destruct (Hfl eq_refl) as (-> & Ht & _).
      rewrite <- Ht, Hrend in Hf. simpl in Hf.
      symmetry in Hf. apply app_eq_nil in Hf as [-> _].
      exact Hw.
Qed.

Lemma run_ble_write_order_witness :
  let tr := fst (run_ble Demo.nearby None []) in
  (reaches_streaming tr /\ snd (run_ble Demo.nearby None []) = Ok tt) /\
  flushed_after_jobs Demo.nearby tr.
Proof.
  cbv zeta.
  assert (H1 : reaches_streaming (fst (run_ble Demo.nearby None [])))
    by (vm_compute; auto).
  assert (H2 : snd (run_ble Demo.nearby None []) = Ok tt) by reflexivity.
  split; [split; assumption|].
  exact (proj1 (proj2 (run_ble_write_order Demo.nearby None)) H1 H2).
Defined.

(** ** The fragment size of a session *)

Lemma chunkify_bound (B : bytes) (F : Z) (frags : list bytes) :
  0 < F -> chunkify B F = Ok frags -> Forall (fun c => Py.len c <= F) frags.
Proof.
  intros HF H. rewrite (chunkify_frames B HF) in H. injection H as <-.
  apply Forall_forall. intros x Hx.
  unfold frames in Hx. apply in_map_iff in Hx as (k & <- & _).
  unfold Py.len. rewrite length_span. lia.
Qed.

Lemma fragments_of_bound (w : World) (cs : Z) (texts : list string) :
  0 < cs ->
  Forall (fun c => Py.len c <= cs) (flat_map (fragments_of w cs) texts).
Proof.
  intros Hcs. apply Forall_flat_map. apply Forall_forall. intros t _.
  unfold fragments_of, job_fragments.
  destruct (render w t) as [img|e]; [|constructor].
  destruct (chunkify _ cs) as [fs|e] eqn:E; [|constructor].
  exact (chunkify_bound _ Hcs E).
Qed.

(** C6. In every connected session the size handed to [chunkify] is the
    [mtu_size] of the client after the negotiation, minus 3: whatever was
    written between the preamble and the flush is, in order, the start of
    the fragments that [chunkify] cuts with that size from the command
    buffer of each job, and all of them when the session ends normally; so
    no fragment is longer than [mtu_size - 3] when that is positive. *)
Theorem session_fragment_size (w : World) (client : Client) (tr : list event) :
  let texts := nonblank (yields (get_input_lines w)) in
  exists es r,
    session w client tr = (tr ++ es, r) /\
    (writes es = [] \/
     exists client' fs rest (flushed : bool),
       negotiated w client = Ok client' /\
       let chunk_size := client'.(mtu_size) - 3 in
       (forall text bin_img,
          render w text = Ok bin_img ->
          job_fragments w chunk_size text =
            chunkify (w.(cmds_print_img) bin_img (negb w.(stdin_isatty)))
                     chunk_size) /\
       writes es = (AtPrepare, w.(prepare)) :: chunk_writes fs
                     ++ (if flushed then [(AtFinish, w.(finish))] else []) /\
       flat_map (fragments_of w chunk_size) texts = fs ++ rest /\
       (r = Ok tt -> rest = [] /\ renders_all w chunk_size texts) /\
       (0 < chunk_size -> Forall (fun f => Py.len f <= chunk_size) fs)).
Proof.
  intros texts.
  destruct (session_obs w client tr) as (es & r & E & _ & H).
  exists es, r. split; [exact E|].
  destruct H as [[H0 _]|(c' & fs & rest & flushed & Hn & Hw & Hf & Hr & Hfl)].
  - now left.
  - right. exists c', fs, rest, flushed. split; [exact Hn|]. cbv zeta.
    split; [|split; [exact Hw|split; [exact Hf|split]]].
    + intros text img Hi. unfold job_fragments. now rewrite Hi.
    + intros Hok. apply Hr in Hok. destruct (Hfl Hok) as (? & _ & ?).
      now split.
    + intros Hcs.
      pose proof (fragments_of_bound w texts Hcs) as Hb.
      fold texts in Hf. rewrite Hf in Hb.
      now apply Forall_app in Hb as [Hb _].
Qed.

Lemma session_fragment_size_witness :
  exists es,
    session Demo.nearby {| is_bluez := true; mtu_size := 23 |} [] = (es, Ok tt) /\
    writes es =
      (AtPrepare, [x51; x78]%byte)
        :: chunk_writes [[x01; x02; x03; x04; x05]; [x06; x07];
                         [x01; x02; x03; x04; x05]; [x06; x07]]%byte
        ++ [(AtFinish, [xff]%byte)].
Proof.
  destruct (session_fragment_size Demo.nearby
              {| is_bluez := true; mtu_size := 23 |} [])
    as (es & r & E & _).
  exists es. simpl in E. split.
  - rewrite E. f_equal.
    apply (f_equal snd) in E. simpl in E. rewrite <- E. reflexivity.
  - apply (f_equal fst) in E. simpl in E. rewrite <- E. reflexivity.
Defined.

(** ** Input lines and print jobs *)

Lemma nonblank_nonempty (l : list string) :
  Forall (fun t => t <> EmptyString) (nonblank l).
Proof.
  apply Forall_forall. intros t Ht. apply filter_In in Ht as [_ Ht].
  destruct t; [discriminate|congruence].
Qed.

Lemma reads_hello_world (w : World) :
  reads w ["hello"; ""; "world"] ->
  nonblank (yields (get_input_lines w)) = ["hello"; "world"].
Proof.
  unfold reads, get_input_lines.
  destruct (stdin_isatty w); intros ->; reflexivity.
Qed.

(** C8. Blank lines produce no print job: in every run the texts rendered
    are non-empty and are the first of the non-blank lines the input
    yields.  With the input lines ["hello"; ""; "world"], a run that
    reaches the streaming phase and ends without an error renders exactly
    the two texts "hello" and "world", and writes the preamble once, then
    the fragments of the first job, then those of the second, then the
    flush once. *)
Theorem blank_lines_print_nothing :
  (forall (w : World) (device : option string),
     let tr := fst (run_ble w device []) in
     Forall (fun t => t <> EmptyString) (rendered tr) /\
     exists rest, nonblank (yields (get_input_lines w)) = rendered tr ++ rest) /\
  (forall (w : World) (device : option string) (tr : list event),
     reads w ["hello"; ""; "world"] ->
     run_ble w device [] = (tr, Ok tt) ->
     reaches_streaming tr ->
     rendered tr = ["hello"; "world"] /\
     exists client client' f1 f2,
       negotiated w client = Ok client' /\
       job_fragments w (client'.(mtu_size) - 3) "hello" = Ok f1 /\
       job_fragments w (client'.(mtu_size) - 3) "world" = Ok f2 /\
       writes tr = (AtPrepare, w.(prepare)) :: chunk_writes (f1 ++ f2)
                     ++ [(AtFinish, w.(finish))]).
Proof.
  split.
  - intros w device.
    destruct (run_ble_obs w device) as (tr & r & E & (rest & P) & _).
    rewrite E. cbv zeta. simpl fst. split; [|now exists rest].
    pose proof (nonblank_nonempty (yields (get_input_lines w))) as H.
    rewrite P in H. now apply Forall_app in H as [H _].
  - intros w device tr Hreads Hrun Hreach.
    destruct (run_ble_obs w device) as (tr' & r & E & _ & H).
    rewrite Hrun in E. injection E as <- <-.
    destruct H as [H0|(a & c & c' & fs & rest & flushed & _ & _ & Hn & Hw & Hf & Hr & Hfl)].
    + unfold reaches_streaming, sites in Hreach. rewrite H0 in Hreach.
      destruct Hreach.
    + assert (Hflu : flushed = true) by now apply Hr.
      subst flushed. destruct (Hfl eq_refl) as (-> & Ht & Hall).
      rewrite (reads_hello_world w Hreads) in Ht, Hf, Hall.
      split; [exact Ht|].
      inversion Hall as [|t1 l1 [f1 Hf1] Hall1]; subst.
      inversion Hall1 as [|t2 l2 [f2 Hf2] _]; subst.
      exists c, c', f1, f2.
      split; [exact Hn|]. split; [exact Hf1|]. split; [exact Hf2|].
      rewrite Hw. f_equal. f_equal. f_equal.
      rewrite app_nil_r in Hf. rewrite <- Hf. simpl.
      unfold fragments_of. now rewrite Hf1, Hf2, app_nil_r.
Qed.

Lemma blank_lines_print_nothing_witness :
  (reads Demo.nearby ["hello"; ""; "world"] /\
   snd (run_ble Demo.nearby None []) = Ok tt /\
   reaches_streaming (fst (run_ble Demo.nearby None []))) /\
  rendered (fst (run_ble Demo.nearby None [])) = ["hello"; "world"].
Proof.
  assert (H1 : reads Demo.nearby ["hello"; ""; "world"]) by reflexivity.
  assert (H2 : run_ble Demo.nearby None [] =
               (fst (run_ble Demo.nearby None []), Ok tt)) by reflexivity.
  assert (H3 : reaches_streaming (fst (run_ble Demo.nearby None [])))
    by (vm_compute; auto).
  split; [split; [exact H1|split; [reflexivity|exact H3]]|].
  exact (proj1 (proj2 blank_lines_print_nothing Demo.nearby None _ H1 H2 H3)).
Defined.

Example terminal_run_prints_two_jobs :
  sites (fst (run_ble Demo.terminal (Some "GT01") [])) =
    [AtPrepare; AtChunk; AtChunk; AtChunk; AtChunk; AtFinish] /\
  rendered (fst (run_ble Demo.terminal (Some "GT01") [])) = ["hello"; "world"].
Proof. split; reflexivity. Qed.

(** ** Identifiers: the characters *)

Ltac each_char c :=
  destruct c as [[] [] [] [] [] [] [] []]; try discriminate; try reflexivity.

Lemma hex_not_special (c : ascii) :
  Int16.is_hex c = true ->
  Ascii.eqb c "u" = false /\ Ascii.eqb c "-" = false /\
  Ascii.eqb c ":" = false /\ Str.mem c "{}" = false /\
  Ascii.eqb c "_" = false /\ Ascii.eqb c "+" = false /\
  Ascii.eqb c "x" = false /\ Ascii.eqb c "X" = false /\
  Str.is_c_space c = false.
Proof. each_char c; intros _; repeat split. Qed.

Lemma hex_is_alnum (c : ascii) :
  Int16.is_hex c = true -> Str.is_alnum c = true.
Proof. each_char c. Qed.

Lemma hex_digit_range (c : ascii) :
  Int16.is_hex c = true -> 0 <= Int16.digit_value c < 16.
Proof. each_char c; intros _; vm_compute; split; congruence. Qed.

Lemma hex_char_lower (c : ascii) :
  Int16.is_hex c = true ->
  Int16.hex_char (Int16.digit_value c) = Str.lower_char c.
Proof. each_char c. Qed.

Lemma lower_char_hex (c : ascii) :
  Int16.is_hex (Str.lower_char c) = Int16.is_hex c.
Proof. each_char c. Qed.

Lemma lower_char_eqb (c d : ascii) :
  Str.is_alnum d = false ->
  Ascii.eqb (Str.lower_char c) d = Ascii.eqb c d.
Proof.
  intros Hd. destruct (Ascii.eqb_spec c d) as [->|Hne].
  - unfold Str.lower_char.
    assert (Hu : Str.is_upper d = false).
    { unfold Str.is_alnum in Hd. apply orb_false_elim in Hd as [Hd _].
      now apply orb_false_elim in Hd as [_ Hd]. }
    rewrite Hu. apply Ascii.eqb_refl.
  - destruct (Ascii.eqb_spec (Str.lower_char c) d) as [E|]; [|reflexivity].
    exfalso. subst d. revert Hd Hne. clear. each_char c; intros _ H; now elim H.
Qed.

(** ** Identifiers: the string operations *)

Lemma all_chars_impl (p q : ascii -> bool) (s : string) :
  (forall c, p c = true -> q c = true) ->
  Str.all_chars p s = true -> Str.all_chars q s = true.
Proof.
  intros Hpq. induction s as [|c r IH]; simpl; [reflexivity|].
  intros H. apply andb_prop in H as [Hc Hr].
  now rewrite (Hpq c Hc), IH.
Qed.

(** Nothing is replaced when the first character of [old] does not occur. *)
Lemma replace_absent (c0 : ascii) (old new s : string) :
  Str.all_chars (fun c => negb (Ascii.eqb c c0)) s = true ->
  Str.replace s (String c0 old) new = s.
Proof.
  unfold Str.replace. induction s as [|c r IH]; simpl; [reflexivity|].
  intros H. apply andb_prop in H as [Hc Hr].
  destruct (ascii_dec c0 c) as [->|_].
  - now rewrite Ascii.eqb_refl in Hc.
  - now rewrite IH.
Qed.

(** Replacing one character by nothing removes it. *)
Lemma replace_single (c0 : ascii) (s : string) :
  Str.replace s (String c0 "") "" = Str.without c0 s.
Proof.
  unfold Str.replace. induction s as [|c r IH]; simpl; [reflexivity|].
  destruct (ascii_dec c0 c) as [->|Hne].
  - rewrite Ascii.eqb_refl, IH. now destruct r.
  - destruct (Ascii.eqb_spec c c0) as [->|_]; [now elim Hne|].
    now rewrite IH.
Qed.

Lemma strip_by_noop (p : ascii -> bool) (s : string) :
  Str.all_chars (fun c => negb (p c)) s = true -> Str.strip_by p s = s.
Proof.
  intros H. unfold Str.strip_by.
  assert (Hl : Str.lstrip_by p s = s).
  { destruct s as [|c r]; [reflexivity|]. simpl in *.
    apply andb_prop in H as [Hc _]. apply negb_true_iff in Hc. now rewrite Hc. }
  rewrite Hl. clear Hl.
  induction s as [|c r IH]; simpl in *; [reflexivity|].
  apply andb_prop in H as [Hc Hr]. apply negb_true_iff in Hc.
  rewrite (IH Hr). destruct r; [now rewrite Hc|reflexivity].
Qed.

Lemma without_absent (c0 : ascii) (s : string) :
  Str.all_chars (fun c => negb (Ascii.eqb c c0)) s = true ->
  Str.without c0 s = s.
Proof.
  induction s as [|c r IH]; simpl; [reflexivity|].
  intros H. apply andb_prop in H as [Hc Hr]. apply negb_true_iff in Hc.
  now rewrite Hc, IH.
Qed.

Lemma lower_without (d : ascii) (s : string) :
  Str.is_alnum d = false ->
  Str.lower (Str.without d s) = Str.without d (Str.lower s).
Proof.
  intros Hd. induction s as [|c r IH]; simpl; [reflexivity|].
  rewrite (lower_char_eqb c d Hd).
  destruct (Ascii.eqb c d); simpl; now rewrite IH.
Qed.

(** ** Identifiers: the forms *)

Lemma has_form_length (f : list Slot) (s : string) :
  has_form f s = true -> String.length s = List.length f.
Proof.
  revert s. induction f as [|sl f IH]; intros [|c r] H; simpl in *;
    try discriminate; try reflexivity.
  - destruct sl; discriminate.
  - destruct sl; apply andb_prop in H as [_ H]; now rewrite (IH r H).
Qed.

(** Every character of a string of a given form satisfies [q], when the
    hexadecimal digits and the fixed characters of the form do. *)
Lemma has_form_chars (q : ascii -> bool) (f : list Slot) (s : string) :
  (forall c, Int16.is_hex c = true -> q c = true) ->
  Forall (fun sl => match sl with Hex => True | Lit d => q d = true end) f ->
  has_form f s = true -> Str.all_chars q s = true.
Proof.
  intros Hq Hf. revert s. induction Hf as [|sl f Hsl _ IH]; intros [|c r] H;
    simpl in *; try discriminate; try reflexivity.
  destruct sl as [|d]; apply andb_prop in H as [Hc Hr].
  - now rewrite (Hq c Hc), IH.
  - apply Ascii.eqb_eq in Hc. subst c. now rewrite Hsl, IH.
Qed.

(** Removing a character that is no digit removes its positions from the
    form. *)
Lemma has_form_without (d : ascii) (f : list Slot) (s : string) :
  Int16.is_hex d = false ->
  has_form f s = true ->
  has_form (filter (keeps d) f) (Str.without d s) = true.
Proof.
  intros Hd. revert s. induction f as [|sl f IH]; intros [|c r] H;
    simpl in *; try discriminate; try reflexivity.
  - destruct sl; discriminate.
  - destruct sl as [|e]; apply andb_prop in H as [Hc Hr]; simpl.
    + destruct (Ascii.eqb_spec c d) as [->|_]; [congruence|].
      simpl. now rewrite Hc, IH.
    + apply Ascii.eqb_eq in Hc. subst e.
      destruct (Ascii.eqb c d); simpl; [now apply IH|].
      now rewrite Ascii.eqb_refl, IH.
Qed.

Lemma has_form_hexes (n : nat) (h : string) :
  has_form (hexes n) h = true ->
  Str.all_chars Int16.is_hex h = true /\ String.length h = n.
Proof.
  intros H. split.
  - apply (has_form_chars Int16.is_hex (f := hexes n)); auto.
    unfold hexes. apply Forall_forall. intros sl Hsl.
    apply repeat_spec in Hsl. now subst.
  - rewrite (has_form_length _ _ H). apply repeat_length.
Qed.

Lemma has_form_lower (f : list Slot) (s : string) :
  Forall (fun sl => match sl with
                    | Hex => True
                    | Lit d => Str.is_alnum d = false
                    end) f ->
  has_form f s = true -> has_form f (Str.lower s) = true.
Proof.
  intros Hf. revert s. induction Hf as [|sl f Hsl _ IH]; intros [|c r] H;
    simpl in *; try discriminate; try reflexivity.
  { destruct sl; discriminate. }
  destruct sl as [|d]; apply andb_prop in H as [Hc Hr].
  - now rewrite lower_char_hex, Hc, IH.
  - now rewrite (lower_char_eqb c d Hsl), Hc, IH.
Qed.

Lemma has_form_count (d : ascii) (f : list Slot) (s : string) :
  Int16.is_hex d = false ->
  has_form f s = true ->
  Str.count s d = Z.of_nat (List.length (filter (fun sl => negb (keeps d sl)) f)).
Proof.
  intros Hd. revert s. induction f as [|sl f IH]; intros [|c r] H;
    simpl in H; try discriminate; try reflexivity.
  - destruct sl; discriminate.
  - destruct sl as [|e]; apply andb_prop in H as [Hc Hr];
      cbn [Str.count filter keeps negb].
    + destruct (Ascii.eqb_spec c d) as [->|_]; [congruence|].
      now rewrite (IH r Hr).
    + apply Ascii.eqb_eq in Hc. subst e.
      rewrite (IH r Hr).
      destruct (Ascii.eqb c d); cbn [negb List.length]; lia.
Qed.

(** ** Identifiers: reading and printing hexadecimal digits *)

Lemma value_acc (s : string) (acc : Z) :
  Int16.value s acc = acc * 16 ^ Str.len s + Int16.value s 0.
Proof.
  unfold Str.len. revert acc. induction s as [|c r IH]; intros acc.
  - simpl. lia.
  - cbn [Int16.value String.length].
    rewrite (IH (acc * 16 + Int16.digit_value c)), (IH (0 * 16 + _)).
    rewrite Nat2Z.inj_succ, Z.pow_succ_r by lia. ring.
Qed.

Lemma value_bound (s : string) :
  Str.all_chars Int16.is_hex s = true ->
  0 <= Int16.value s 0 < 16 ^ Str.len s.
Proof.
  unfold Str.len. induction s as [|c r IH]; intros H.
  - simpl. lia.
  - cbn [Str.all_chars] in H. apply andb_prop in H as [Hc Hr].
    cbn [Int16.value String.length]. rewrite value_acc. unfold Str.len.
    pose proof (hex_digit_range c Hc). specialize (IH Hr).
    rewrite Nat2Z.inj_succ, Z.pow_succ_r by lia.
    assert (0 < 16 ^ Z.of_nat (String.length r)) by (apply Z.pow_pos_nonneg; lia).
    nia.
Qed.

Lemma digits_hex (h : string) (acc : Z) (n : nat) :
  Str.all_chars Int16.is_hex h = true ->
  Int16.digits h false acc n
  = Some (Int16.value h acc, (n + String.length h)%nat, EmptyString).
Proof.
  revert acc n. induction h as [|c r IH]; intros acc n H.
  - simpl. now rewrite Nat.add_0_r.
  - cbn [Str.all_chars] in H. apply andb_prop in H as [Hc Hr].
    cbn [Int16.digits Int16.value String.length].
    destruct (hex_not_special c Hc) as (_ & _ & _ & _ & Hu & _).
    rewrite Hu, Hc, (IH _ _ Hr). do 3 f_equal. lia.
Qed.

(** [int(h, 16)] on a non-empty string of hexadecimal digits. *)
Lemma parse_hex (h : string) :
  Str.all_chars Int16.is_hex h = true -> h <> EmptyString ->
  Int16.parse h = Ok (Int16.value h 0).
Proof.
  intros H Hne. destruct h as [|c r]; [congruence|].
  pose proof H as Hall.
  cbn [Str.all_chars] in H. apply andb_prop in H as [Hc Hr].
  destruct (hex_not_special c Hc)
    as (_ & Hdash & _ & _ & Hus & Hplus & _ & _ & Hsp).
  unfold Int16.parse. cbn [Str.lstrip_by]. rewrite Hsp.
  unfold Int16.strip_sign. rewrite Hplus, Hdash.
  assert (Hp : Int16.strip_prefix (String c r) = String c r).
  { unfold Int16.strip_prefix. destruct r as [|x r']; [reflexivity|].
    cbn [Str.all_chars] in Hr. apply andb_prop in Hr as [Hx _].
    destruct (hex_not_special x Hx) as (_ & _ & _ & _ & _ & _ & Hx1 & Hx2 & _).
    now rewrite Hx1, Hx2, andb_false_r. }
  rewrite Hp. cbn [Int16.starts_with]. rewrite Hus.
  rewrite (digits_hex _ 0 0 Hall). cbn [Nat.add String.length Str.all_chars].
  f_equal. lia.
Qed.

Lemma rev_seq_S (n : nat) : rev (seq 0 (S n)) = n :: rev (seq 0 n).
Proof. rewrite seq_S, rev_app_distr. reflexivity. Qed.

(** The hexadecimal digits of the value of [h], most significant first,
    are the characters of [h] in lower case. *)
Lemma digits_of_value (h : string) :
  Str.all_chars Int16.is_hex h = true ->
  map (fun i => Int16.hex_char ((Int16.value h 0 / 16 ^ Z.of_nat i) mod 16))
      (rev (seq 0 (String.length h)))
  = list_ascii_of_string (Str.lower h).
Proof.
  induction h as [|c r IH]; intros H; [reflexivity|].
  cbn [Str.all_chars] in H. apply andb_prop in H as [Hc Hr].
  cbn [String.length Str.lower list_ascii_of_string Int16.value].
  rewrite rev_seq_S, value_acc. cbn [map].
  pose proof (hex_digit_range c Hc) as Hd.
  pose proof (value_bound r Hr) as Hv. unfold Str.len in *.
  set (n := String.length r) in *.
  set (d := Int16.digit_value c) in *.
  set (v := Int16.value r 0) in *.
  replace (0 * 16 + d) with d by lia.
  assert (Hpos : forall k, 0 < 16 ^ Z.of_nat k)
    by (intros k; apply Z.pow_pos_nonneg; lia).
  f_equal.
  - rewrite Z.div_add_l by (specialize (Hpos n); lia).
    rewrite Z.div_small by lia. rewrite Z.add_0_r, Z.mod_small by lia.
    now apply hex_char_lower.
  - rewrite <- (IH Hr). apply map_ext_in. intros i Hi.
    apply in_rev, in_seq in Hi. f_equal.
    replace (d * 16 ^ Z.of_nat n)
      with (d * 16 ^ Z.of_nat (n - i - 1) * 16 * 16 ^ Z.of_nat i).
    + rewrite Z.div_add_l by (specialize (Hpos i); lia).
      rewrite Z.add_comm, Z.mod_add by lia. reflexivity.
    + rewrite <- !Z.mul_assoc. f_equal.
      rewrite <- (Z.pow_1_r 16) at 2.
      rewrite <- !Z.pow_add_r by lia. f_equal. lia.
Qed.

Lemma hex_len_32 (v : Z) : 0 <= v < 16 ^ 32 -> Nat.max 32 (Int16.hex_len v) = 32%nat.
Proof.
  intros Hv. apply Nat.max_l. unfold Int16.hex_len.
  destruct (Z.eqb_spec v 0); [lia|].
  assert (Hl : Z.log2 v < 128).
  { apply Z.log2_lt_pow2; [lia|]. change (2 ^ 128) with (16 ^ 32). lia. }
  pose proof (Z.log2_nonneg v).
  assert (Z.log2 v / 4 < 32) by (apply Z.div_lt_upper_bound; lia).
  assert (0 <= Z.log2 v / 4) by (apply Z.div_pos; lia).
  lia.
Qed.

(** ["%032x"] of the value of 32 hexadecimal digits gives them back in
    lower case. *)
Lemma format_value (h : string) :
  Str.all_chars Int16.is_hex h = true -> String.length h = 32%nat ->
  Int16.format_032x (Int16.value h 0) = Str.lower h.
Proof.
  intros H Hl. unfold Int16.format_032x.
  pose proof (value_bound h H) as Hv. unfold Str.len in Hv. rewrite Hl in Hv.
  rewrite hex_len_32 by exact Hv.
  rewrite <- Hl, (digits_of_value h H).
  apply string_of_list_ascii_of_string.
Qed.

(** ** Identifiers: [uuid.UUID] and [str] *)

Lemma UUID_raises_ValueError (s : string) (e : exn) :
  uuid.UUID s = Raise e -> exists m, e = ValueError m.
Proof.
  unfold uuid.UUID. destruct (negb _); [intros [= <-]; eauto|].
  destruct (Int16.parse _) as [v|e'] eqn:Ep.
  - destruct (negb _); [intros [= <-]; eauto|discriminate].
  - intros [= <-]. revert Ep. unfold Int16.parse.
    destruct (Int16.strip_sign _) as [sg s2].
    destruct (Int16.starts_with _ _); [intros [= <-]; unfold Int16.invalid_literal; eauto|].
    destruct (Int16.digits _ _ _ _) as [[[v n] rest]|];
      [|intros [= <-]; unfold Int16.invalid_literal; eauto].
    destruct n; [intros [= <-]; unfold Int16.invalid_literal; eauto|].
    destruct (Str.all_chars _ _); [discriminate|].
    intros [= <-]. unfold Int16.invalid_literal. eauto.
Qed.

(** Before the digits are read, an identifier of a form made of digits,
    dashes and colons only loses its dashes and nothing else. *)
Lemma UUID_normalise (f : list Slot) (s : string) :
  Forall (fun sl => match sl with
                    | Hex => True
                    | Lit d => d = "-"%char \/ d = ":"%char
                    end) f ->
  has_form f s = true ->
  Str.replace
    (Str.strip_chars
       (Str.replace (Str.replace s "urn:" "") "uuid:" "") "{}") "-" ""
  = Str.without "-" s.
Proof.
  intros Hf H.
  assert (Hu : Str.all_chars (fun c => negb (Ascii.eqb c "u")) s = true).
  { apply (has_form_chars _ (f := f)); [| |exact H].
    - intros c Hc. destruct (hex_not_special c Hc) as (E & _).
      now rewrite E.
    - revert Hf. apply Forall_impl. intros [|d]; [trivial|].
      intros [->| ->]; reflexivity. }
  assert (Hb : Str.all_chars (fun c => negb (Str.mem c "{}")) s = true).
  { apply (has_form_chars _ (f := f)); [| |exact H].
    - intros c Hc. destruct (hex_not_special c Hc) as (_ & _ & _ & E & _).
      now rewrite E.
    - revert Hf. apply Forall_impl. intros [|d]; [trivial|].
      intros [->| ->]; reflexivity. }
  rewrite (@replace_absent "u" "rn:" "" s Hu).
  rewrite (@replace_absent "u" "uid:" "" s Hu).
  unfold Str.strip_chars. rewrite strip_by_noop by exact Hb.
  apply replace_single.
Qed.

Lemma uuid_form_slots :
  Forall (fun sl => match sl with
                    | Hex => True
                    | Lit d => d = "-"%char \/ d = ":"%char
                    end) uuid_form /\
  Forall (fun sl => match sl with
                    | Hex => True
                    | Lit d => Str.is_alnum d = false
                    end) uuid_form /\
  filter (keeps "-") uuid_form = hexes 32.
Proof.
  split; [|split].
  - unfold uuid_form, hexes. simpl.
    repeat (apply Forall_cons; [first [exact I | now left | now right]|]).
    apply Forall_nil.
  - unfold uuid_form, hexes. simpl. repeat constructor.
  - reflexivity.
Qed.

Lemma address_form_slots :
  Forall (fun sl => match sl with
                    | Hex => True
                    | Lit d => d = "-"%char \/ d = ":"%char
                    end) address_form /\
  Forall (fun sl => match sl with
                    | Hex => True
                    | Lit d => negb (Ascii.eqb d "-") = true
                    end) address_form /\
  filter (keeps ":") address_form = hexes 12 /\
  List.length (filter (fun sl => negb (keeps ":" sl)) address_form) = 5%nat.
Proof.
  split; [|split; [|split]].
  - unfold address_form, hexes. simpl.
    repeat (apply Forall_cons; [first [exact I | now left | now right]|]).
    apply Forall_nil.
  - unfold address_form, hexes. simpl. repeat constructor.
  - reflexivity.
  - reflexivity.
Qed.

(** [uuid.UUID] accepts a canonical identifier and reads its 32 digits. *)
Lemma UUID_canonical (s : string) :
  is_canonical_uuid s = true ->
  uuid.UUID s = Ok (Int16.value (Str.without "-" s) 0).
Proof.
  intros H. unfold is_canonical_uuid in H.
  destruct uuid_form_slots as (F1 & _ & F3).
  unfold uuid.UUID. rewrite (@UUID_normalise uuid_form s F1 H).
  pose proof (has_form_without "-" uuid_form s eq_refl H) as Hh.
  rewrite F3 in Hh. apply has_form_hexes in Hh as [Hall Hlen].
  unfold Str.len. rewrite Hlen. cbn [Z.of_nat Z.eqb Pos.eqb negb Pos.of_succ_nat].
  change (Z.of_nat 32 =? 32) with true. cbn [negb].
  rewrite parse_hex; [|exact Hall|intros E; rewrite E in Hlen; discriminate].
  pose proof (value_bound _ Hall) as Hv. unfold Str.len in Hv.
  rewrite Hlen in Hv. change (16 ^ Z.of_nat 32) with (2 ^ 128) in Hv.
  destruct (Z.leb_spec 0 (Int16.value (Str.without "-" s) 0)); [|lia].
  destruct (Z.ltb_spec (Int16.value (Str.without "-" s) 0) (2 ^ 128)); [|lia].
  reflexivity.
Qed.

Lemma without_keep (d c : ascii) (r : string) :
  Ascii.eqb c d = false -> Str.without d (String c r) = String c (Str.without d r).
Proof. intros H. simpl. now rewrite H. Qed.

Lemma without_drop (d : ascii) (r : string) :
  Str.without d (String d r) = Str.without d r.
Proof. simpl. now rewrite Ascii.eqb_refl. Qed.

Lemma peel_hex (f : list Slot) (s : string) :
  has_form (Hex :: f) s = true ->
  exists c r,
    s = String c r /\ Ascii.eqb c "-" = false /\ has_form f r = true.
Proof.
  destruct s as [|c r]; [discriminate|]. simpl. intros H.
  apply andb_prop in H as [Hc H]. exists c, r.
  destruct (hex_not_special c Hc) as (_ & Hd & _). auto.
Qed.

Lemma peel_lit (d : ascii) (f : list Slot) (s : string) :
  has_form (Lit d :: f) s = true ->
  exists r, s = String d r /\ has_form f r = true.
Proof.
  destruct s as [|c r]; [discriminate|]. simpl. intros H.
  apply andb_prop in H as [Hc H]. apply Ascii.eqb_eq in Hc. subst c.
  exists r. auto.
Qed.

Lemma peel_nil (s : string) : has_form [] s = true -> s = EmptyString.
Proof. destruct s; [reflexivity|discriminate]. Qed.

(** Peel the first position of a form off the string. *)
Ltac peel H :=
  lazymatch type of H with
  | has_form (Hex :: _) _ = true =>
      let c := fresh "c" in
      let r := fresh "r" in
      let Hc := fresh "Hc" in
      apply peel_hex in H; destruct H as (c & r & -> & Hc & H)
  | has_form (Lit _ :: _) _ = true =>
      let r := fresh "r" in
      apply peel_lit in H; destruct H as (r & -> & H)
  | has_form [] _ = true =>
      apply peel_nil in H; subst
  end.

(** Cutting the digits of a canonical identifier at 8, 12, 16 and 20 and
    joining the pieces with dashes gives the identifier back. *)
Lemma dashes_back (t : string) :
  has_form uuid_form t = true ->
  let hex := Str.without "-" t in
  (Str.slice hex 0 8 ++ "-" ++ Str.slice hex 8 12 ++ "-" ++
   Str.slice hex 12 16 ++ "-" ++ Str.slice hex 16 20 ++ "-" ++
   Str.slice hex 20 (Str.len hex))%string = t.
Proof.
  intros H. unfold uuid_form, hexes in H. cbn [repeat app] in H.
  do 37 peel H.
  cbv zeta.
  repeat (rewrite without_drop || rewrite without_keep by assumption).
  reflexivity.
Qed.

(** [str] of the value read from a canonical identifier is the identifier
    in lower case. *)
Lemma str_canonical (s : string) :
  is_canonical_uuid s = true ->
  uuid.str (Int16.value (Str.without "-" s) 0) = Str.lower s.
Proof.
  intros H. unfold is_canonical_uuid in H.
  destruct uuid_form_slots as (_ & F2 & F3).
  pose proof (has_form_without "-" uuid_form s eq_refl H) as Hh.
  rewrite F3 in Hh. apply has_form_hexes in Hh as [Hall Hlen].
  unfold uuid.str. rewrite (format_value _ Hall Hlen).
  rewrite (lower_without "-" s eq_refl).
  apply (dashes_back (Str.lower s)).
  now apply has_form_lower.
Qed.

Lemma lower_fixed (s : string) :
  Str.all_chars (fun c => negb (Str.is_upper c)) s = true -> Str.lower s = s.
Proof.
  induction s as [|c r IH]; simpl; [reflexivity|].
  intros H. apply andb_prop in H as [Hc Hr]. apply negb_true_iff in Hc.
  unfold Str.lower_char. now rewrite Hc, IH.
Qed.

(** [uuid.UUID] rejects a six-group colon-separated address, and the
    second test of [get_device_address] accepts it. *)
Lemma colon_address_tests (s : string) :
  is_colon_address s = true ->
  (exists m, uuid.UUID s = Raise (ValueError m)) /\
  five_colons_alnum s = true.
Proof.
  intros H. unfold is_colon_address in H.
  destruct address_form_slots as (F1 & F2 & F3 & F4).
  split.
  - unfold uuid.UUID. rewrite (@UUID_normalise address_form s F1 H).
    rewrite without_absent.
    + unfold Str.len. rewrite (has_form_length _ _ H). simpl. eauto.
    + apply (has_form_chars _ (f := address_form)); [|exact F2|exact H].
      intros c Hc. destruct (hex_not_special c Hc) as (_ & E & _).
      now rewrite E.
  - unfold five_colons_alnum.
    rewrite (has_form_count ":" address_form s eq_refl H), F4.
    rewrite replace_single.
    pose proof (has_form_without ":" address_form s eq_refl H) as Hh.
    rewrite F3 in Hh. apply has_form_hexes in Hh as [Hall Hlen].
    simpl. unfold Str.isalnum.
    destruct (Str.without ":" s) as [|c r]; [discriminate|].
    exact (all_chars_impl _ _ _ hex_is_alnum Hall).
Qed.

(** [get_device_address], case by case. *)
Lemma get_device_address_cases (w : World) (s : string) (tr : list event) :
  get_device_address w (Some s) tr =
    match s with
    | EmptyString => scanning w (Some s) tr
    | _ =>
        match uuid.UUID s with
        | Ok u => (tr, Ok (AddrStr (uuid.str u)))
        | Raise _ =>
            if five_colons_alnum s then (tr, Ok (AddrStr s))
            else scanning w (Some s) tr
        end
    end.
Proof.
  destruct s as [|c r]; [reflexivity|].
  unfold get_device_address, bind at 1, lift, suppress_ValueError.
  destruct (uuid.UUID (String c r)) as [u|e] eqn:E; [reflexivity|].
  destruct (UUID_raises_ValueError _ E) as [m ->].
  unfold five_colons_alnum, scanning.
  destruct (_ && _); reflexivity.
Qed.

Example resolve_examples :
  get_device_address Demo.absent (Some "AA:BB:CC:DD:EE:FF") [] =
    ([], Ok (AddrStr "AA:BB:CC:DD:EE:FF")) /\
  get_device_address Demo.absent (Some "not-an-address") [] =
    scanning Demo.absent (Some "not-an-address") [] /\
  get_device_address Demo.absent
    (Some "{0000AE3000001000800000805F9B34FB}") [] =
    ([], Ok (AddrStr "0000ae30-0000-1000-8000-00805f9b34fb")).
Proof. repeat split; reflexivity. Qed.

(** C3, as stated, fails.  The string "a:b:c:d:e:g" is neither a canonical
    128-bit identifier nor a six-group hexadecimal address, and it is
    returned verbatim without scanning; the canonical identifier
    "0000AE30-0000-1000-8000-00805F9B34FB" comes back in lower case, not
    verbatim. *)
Lemma resolution_not_as_specified :
  (is_canonical_uuid "a:b:c:d:e:g" = false /\
   is_colon_address "a:b:c:d:e:g" = false /\
   get_device_address Demo.absent (Some "a:b:c:d:e:g") [] =
     ([], Ok (AddrStr "a:b:c:d:e:g")) /\
   ~ resolves_as_specified Demo.absent "a:b:c:d:e:g") /\
  (is_canonical_uuid "0000AE30-0000-1000-8000-00805F9B34FB" = true /\
   get_device_address Demo.absent
     (Some "0000AE30-0000-1000-8000-00805F9B34FB") [] =
     ([], Ok (AddrStr "0000ae30-0000-1000-8000-00805f9b34fb")) /\
   ~ resolves_as_specified Demo.absent "0000AE30-0000-1000-8000-00805F9B34FB").
Proof.
  split; [split; [|split; [|split]]|split; [|split]]; try reflexivity.
  - intros H. specialize (H []). vm_compute in H. discriminate.
  - intros H. specialize (H []). vm_compute in H. discriminate.
Qed.

(** C3, amended.  For an identifier of ASCII characters: a canonical
    128-bit identifier is returned in lower case, so verbatim when it has
    no upper-case digit; more generally, whatever [uuid.UUID] accepts is
    returned as the canonical string of its value.  Otherwise a string
    with exactly five colons that is alphanumeric without them is returned
    verbatim, and every six-group hexadecimal address is such a string.
    In every other case, the empty string and [None] included, the
    identifier is handed to the scanner as the name filter. *)
Theorem get_device_address_resolution (w : World) (s : string)
    (tr : list event) (Hascii : Str.is_ascii s = true) :
  (is_canonical_uuid s = true ->
     get_device_address w (Some s) tr = (tr, Ok (AddrStr (Str.lower s)))) /\
  (is_canonical_uuid s = true ->
   Str.all_chars (fun c => negb (Str.is_upper c)) s = true ->
     get_device_address w (Some s) tr = (tr, Ok (AddrStr s))) /\
  (forall u, s <> EmptyString -> uuid.UUID s = Ok u ->
     get_device_address w (Some s) tr = (tr, Ok (AddrStr (uuid.str u)))) /\
  (is_colon_address s = true ->
     get_device_address w (Some s) tr = (tr, Ok (AddrStr s))) /\
  (forall e, s <> EmptyString -> uuid.UUID s = Raise e ->
   five_colons_alnum s = true ->
     get_device_address w (Some s) tr = (tr, Ok (AddrStr s))) /\
  (forall e, uuid.UUID s = Raise e -> five_colons_alnum s = false ->
     get_device_address w (Some s) tr = scanning w (Some s) tr) /\
  get_device_address w (Some EmptyString) tr = scanning w (Some EmptyString) tr /\
  get_device_address w None tr = scanning w None tr.
Proof.
  assert (Hcanon : is_canonical_uuid s = true ->
            get_device_address w (Some s) tr = (tr, Ok (AddrStr (Str.lower s)))).
  { intros H. rewrite get_device_address_cases.
    destruct s as [|c r]; [discriminate|].
    now rewrite (UUID_canonical _ H), (str_canonical _ H). }
  split; [exact Hcanon|]. split; [|split; [|split; [|split; [|split; [|split]]]]].
  - intros H Hlow. rewrite (Hcanon H). now rewrite (lower_fixed _ Hlow).
  - intros u Hne Hu. rewrite get_device_address_cases.
    destruct s; [congruence|]. now rewrite Hu.
  - intros H. rewrite get_device_address_cases.
    destruct (colon_address_tests _ H) as [[m Hu] Ht].
    destruct s; [discriminate|]. now rewrite Hu, Ht.
  - intros e Hne Hu Ht. rewrite get_device_address_cases.
    destruct s; [congruence|]. now rewrite Hu, Ht.
  - intros e Hu Ht. rewrite get_device_address_cases.
    destruct s; [reflexivity|]. now rewrite Hu, Ht.
  - reflexivity.
  - reflexivity.
Qed.

Lemma get_device_address_resolution_witness :
  (Str.is_ascii "0000ae30-0000-1000-8000-00805f9b34fb" = true /\
   is_canonical_uuid "0000ae30-0000-1000-8000-00805f9b34fb" = true) /\
  (Str.is_ascii "AA:BB:CC:DD:EE:FF" = true /\
   is_colon_address "AA:BB:CC:DD:EE:FF" = true) /\
  (Str.is_ascii "not-an-address" = true /\
   five_colons_alnum "not-an-address" = false) /\
  get_device_address Demo.nearby
    (Some "0000ae30-0000-1000-8000-00805f9b34fb") [] =
    ([], Ok (AddrStr "0000ae30-0000-1000-8000-00805f9b34fb")) /\
  get_device_address Demo.nearby (Some "AA:BB:CC:DD:EE:FF") [] =
    ([], Ok (AddrStr "AA:BB:CC:DD:EE:FF")) /\
  get_device_address Demo.nearby (Some "not-an-address") [] =
    scanning Demo.nearby (Some "not-an-address") [].
Proof.
  assert (A1 : Str.is_ascii "0000ae30-0000-1000-8000-00805f9b34fb" = true)
    by reflexivity.
  assert (A2 : Str.is_ascii "AA:BB:CC:DD:EE:FF" = true) by reflexivity.
  assert (A3 : Str.is_ascii "not-an-address" = true) by reflexivity.
  assert (H1 : is_canonical_uuid "0000ae30-0000-1000-8000-00805f9b34fb" = true)
    by reflexivity.
  assert (H2 : is_colon_address "AA:BB:CC:DD:EE:FF" = true) by reflexivity.
  assert (H3 : five_colons_alnum "not-an-address" = false) by reflexivity.
  split; [now split|]. split; [now split|]. split; [now split|].
  split; [|split].
  - exact (proj1 (proj2 (@get_device_address_resolution Demo.nearby
             "0000ae30-0000-1000-8000-00805f9b34fb" [] A1)) H1 eq_refl).
  - exact (proj1 (proj2 (proj2 (proj2 (@get_device_address_resolution Demo.nearby
             "AA:BB:CC:DD:EE:FF" [] A2)))) H2).
  - exact (proj1 (proj2 (proj2 (proj2 (proj2 (proj2
             (@get_device_address_resolution Demo.nearby
                "not-an-address" [] A3))))))
             (ValueError "badly formed hexadecimal UUID string") eq_refl H3).
Defined.

(** * Further properties *)

(** ** What the steps of a run append to the trace *)

Section Appends.

Variable Q : list event -> Prop.
Context {HQ : Segmental Q}.

Lemma appends_ret (A : Type) (a : A) : appends Q (ret a).
Proof.
  intros tr. exists [], (Ok a). unfold ret. rewrite app_nil_r.
  split; [reflexivity|apply seg_nil].
Qed.

Lemma appends_raise (A : Type) (e : exn) : appends Q (raise (A := A) e).
Proof.
  intros tr. exists [], (Raise e). unfold raise. rewrite app_nil_r.
  split; [reflexivity|apply seg_nil].
Qed.

Lemma appends_lift (A : Type) (r : result A) : appends Q (lift r).
Proof.
  intros tr. exists [], r. unfold lift. rewrite app_nil_r.
  split; [reflexivity|apply seg_nil].
Qed.

Lemma appends_emit (e : event) : plain e = true -> appends Q (emit e).
Proof.
  intros He tr. exists [e], (Ok tt). split; [reflexivity|now apply seg_plain].
Qed.

Lemma appends_bind (A B : Type) (m : M A) (k : A -> M B) :
  appends Q m -> (forall a, appends Q (k a)) -> appends Q (bind m k).
Proof.
  intros Hm Hk tr. unfold bind.
  destruct (Hm tr) as (es1 & r1 & E1 & Q1). rewrite E1.
  destruct r1 as [a|e].
  - destruct (Hk a (tr ++ es1)) as (es2 & r2 & E2 & Q2). rewrite E2.
    exists (es1 ++ es2), r2. rewrite app_assoc.
    split; [reflexivity|now apply seg_app].
  - exists es1, (Raise e). now split.
Qed.

Lemma plain_list (es : list event) : forallb plain es = true -> Q es.
Proof.
  induction es as [|e es IH]; simpl; intros H; [apply seg_nil|].
  apply andb_prop in H as [He Hes].
  change (e :: es) with ([e] ++ es).
  apply seg_app; [now apply seg_plain|now apply IH].
Qed.

Lemma appends_emit_all (es : list event) :
  forallb plain es = true -> appends Q (emit_all es).
Proof.
  intros H tr. rewrite emit_all_trace. exists es, (Ok tt).
  split; [reflexivity|now apply plain_list].
Qed.

Lemma appends_for_each (A : Type) (xs : list A) (body : A -> M unit) :
  (forall x, appends Q (body x)) -> appends Q (for_each xs body).
Proof.
  intros Hb. induction xs as [|x xs IH]; simpl.
  - apply appends_ret.
  - apply appends_bind; [apply Hb|intros _; exact IH].
Qed.

Lemma appends_for_gen (A : Type) (g : gen A) (body : A -> M unit) :
  plain_gen g -> (forall x, appends Q (body x)) -> appends Q (for_gen g body).
Proof.
  intros Hg Hb. induction g as [pre|pre x rest IH]; simpl in *.
  - now apply appends_emit_all.
  - destruct Hg as [Hpre Hrest].
    apply appends_bind; [now apply appends_emit_all|intros _].
    apply appends_bind; [apply Hb|intros _; now apply IH].
Qed.

(** A write of the preamble or of the flush. *)
Lemma appends_write (w : World) (site : Site) (data : bytes) :
  site <> AtChunk ->
  appends Q (write_gatt_char w site TX_CHARACTERISTIC_UUID data).
Proof.
  intros Hs tr.
  destruct (write_gatt_char_cases w site TX_CHARACTERISTIC_UUID data tr)
    as [E|[e E]]; rewrite E.
  - eexists _, _. split; [reflexivity|].
    apply seg_plain. destruct site; [reflexivity|congruence|reflexivity].
  - exists [], (Raise e). rewrite app_nil_r. split; [reflexivity|apply seg_nil].
Qed.

(** A write of one fragment and the pause after it. *)
Lemma appends_chunk (w : World) (chunk : bytes) :
  appends Q (write_gatt_char w AtChunk TX_CHARACTERISTIC_UUID chunk ;;
             emit (Sleep WAIT_AFTER_EACH_CHUNK_S)).
Proof.
  intros tr. unfold bind.
  destruct (write_gatt_char_cases w AtChunk TX_CHARACTERISTIC_UUID chunk tr)
    as [E|[e E]]; rewrite E.
  - unfold emit. eexists _, _. rewrite <- app_assoc.
    split; [reflexivity|apply seg_chunk].
  - exists [], (Raise e). rewrite app_nil_r. split; [reflexivity|apply seg_nil].
Qed.

Lemma appends_text_to_image (w : World) (text : string) :
  appends Q (text_to_image w text).
Proof.
  unfold text_to_image, text_to_image_with, magick_text. simpl.
  apply appends_bind; [now apply appends_emit|intros _].
  apply appends_bind.
  - apply appends_bind; [now apply appends_emit|intros _].
    destruct (negb _); [apply appends_raise|apply appends_ret].
  - intros pbm. destruct (imdecode w pbm); [|apply appends_raise].
    apply appends_bind; [now apply appends_emit|intros _].
    apply appends_bind; [now apply appends_emit|intros _].
    apply appends_ret.
Qed.

Lemma appends_print_text (w : World) (cs : Z) (text : string) :
  appends Q (print_text w cs text).
Proof.
  destruct text as [|c t]; [apply appends_ret|].
  unfold print_text.
  apply appends_bind; [apply appends_text_to_image|intros img].
  apply appends_bind; [now apply appends_emit|intros _].
  apply appends_bind; [apply appends_lift|intros chunks].
  apply appends_for_each. intros chunk. apply appends_chunk.
Qed.

Lemma get_input_lines_plain (w : World) : plain_gen (get_input_lines w).
Proof.
  unfold get_input_lines. destruct (negb _).
  - induction (stdin_lines w) as [|l ls IH]; simpl; auto.
  - assert (H : forall typed pending,
               forallb plain pending = true ->
               plain_gen (interactive_lines typed pending)).
    { induction typed as [|l ls IH]; intros pending Hp; simpl.
      - rewrite forallb_app, Hp. reflexivity.
      - assert (Hp' : forallb plain (pending ++ [Prompt "> "]) = true)
          by (rewrite forallb_app, Hp; reflexivity).
        destruct (Str.strip l) as [|c s]; [now apply IH|].
        destruct (_ || _); [exact Hp'|].
        cbn [plain_gen]. split; [exact Hp'|now apply IH]. }
    now apply H.
Qed.

Lemma appends_scan (w : World) (name : option string) (timeout : Z) :
  appends Q (scan w name timeout).
Proof.
  unfold scan, find_device_by_filter.
  apply appends_bind.
  { apply appends_emit. now destruct (negb _). }
  intros _. apply appends_bind.
  { apply appends_bind; [now apply appends_emit|intros _; apply appends_ret]. }
  intros [d|]; [|apply appends_raise].
  apply appends_bind; [now apply appends_emit|intros _; apply appends_ret].
Qed.

Lemma appends_get_device_address (w : World) (device : option string) :
  appends Q (get_device_address w device).
Proof.
  assert (Hs : appends Q (d <- scan w device SCAN_TIMEOUT_S ;; ret (AddrDev d))).
  { apply appends_bind; [apply appends_scan|intros d; apply appends_ret]. }
  unfold get_device_address. destruct device as [[|c s]|]; try exact Hs.
  apply appends_bind; [apply appends_lift|].
  intros [u|]; [apply appends_ret|].
  destruct (_ && _); [apply appends_ret|exact Hs].
Qed.

(** The session after the negotiation of the MTU. *)
Lemma session_shape (w : World) (client : Client) (tr : list event) :
  exists es r,
    session w client tr
    = (tr ++ (if client.(is_bluez) then [AcquireMtu] else []) ++ es, r) /\
    Q es.
Proof.
  unfold session. unfold bind at 1.
  assert (Hrest : forall c : Client, appends Q (
    log INFO (MsgConnected (mtu_size c)) ;;
    write_gatt_char w AtPrepare TX_CHARACTERISTIC_UUID (prepare w) ;;
    for_gen (get_input_lines w) (print_text w (mtu_size c - 3)) ;;
    write_gatt_char w AtFinish TX_CHARACTERISTIC_UUID (finish w) ;;
    log INFO MsgDone)).
  { intros c.
    apply appends_bind; [now apply appends_emit|intros _].
    apply appends_bind; [now apply appends_write|intros _].
    apply appends_bind.
    { apply appends_for_gen; [apply get_input_lines_plain|].
      intros x. apply appends_print_text. }
    intros _.
    apply appends_bind; [now apply appends_write|intros _].
    now apply appends_emit. }
  destruct (is_bluez client).
  - unfold bind at 1, emit at 1, lift.
    destruct (acquire_mtu w client) as [c|e].
    + destruct (Hrest c (tr ++ [AcquireMtu])) as (es & r & E & Qes).
      rewrite E. exists es, r. rewrite <- app_assoc. now split.
    + exists [], (Raise e). split; [reflexivity|apply seg_nil].
  - unfold ret at 1.
    destruct (Hrest client tr) as (es & r & E & Qes).
    rewrite E. exists es, r. now split.
Qed.

(** The three ways a run goes: the printer is not found; the connection
    fails; or the session runs between one connection and one
    disconnection. *)
Lemma run_ble_shape (w : World) (device : option string) :
  exists es0 r0,
    get_device_address w device [] = (es0, r0) /\ Q es0 /\
    match r0 with
    | Raise (RuntimeError m) =>
        run_ble w device []
        = (es0 ++ [Log ERROR (MsgStop (RuntimeError m))], Ok tt)
    | Raise e => run_ble w device [] = (es0, Raise e)
    | Ok a =>
        match w.(connect) a with
        | Raise e =>
            run_ble w device []
            = (es0 ++ [Log INFO (MsgConnecting a)], Raise e)
        | Ok client =>
            exists es r,
              Q es /\
              run_ble w device []
              = (es0 ++ [Log INFO (MsgConnecting a); Connect a]
                   ++ (if client.(is_bluez) then [AcquireMtu] else [])
                   ++ es ++ [Disconnect], r)
        end
    end.
Proof.
  destruct (appends_get_device_address w device []) as (es0 & r0 & E0 & Q0).
  simpl in E0. exists es0, r0. split; [exact E0|]. split; [exact Q0|].
  assert (Hrun : run_ble w device [] =
    match r0 with
    | Raise (RuntimeError m) =>
        (es0 ++ [Log ERROR (MsgStop (RuntimeError m))], Ok tt)
    | Raise e => (es0, Raise e)
    | Ok a =>
        with_client w a (session w) (es0 ++ [Log INFO (MsgConnecting a)])
    end).
  { unfold run_ble, try_RuntimeError. unfold bind at 1. unfold bind at 1.
    rewrite E0. destruct r0 as [a|[m|m|m]]; reflexivity. }
  rewrite Hrun. clear Hrun.
  destruct r0 as [a|[m|m|m]]; try reflexivity.
  unfold with_client. destruct (connect w a) as [client|e]; [|reflexivity].
  destruct (session_shape w client
              ((es0 ++ [Log INFO (MsgConnecting a)]) ++ [Connect a]))
    as (es & r & E & Qes).
  rewrite E. exists es, r. split; [exact Qes|].
  rewrite <- !app_assoc. reflexivity.
Qed.

End Appends.

(** ** Properties of every event of a run *)

Lemma Segmental_Forall (P : event -> Prop) :
  (forall e, plain e = true -> P e) ->
  (forall c, P (Write AtChunk TX_CHARACTERISTIC_UUID c)) ->
  P (Sleep WAIT_AFTER_EACH_CHUNK_S) ->
  Segmental (Forall P).
Proof.
  intros Hp Hc Hs. split.
  - constructor.
  - intros a b Ha Hb. apply Forall_app. now split.
  - intros e He. repeat constructor. now apply Hp.
  - intros c. repeat constructor; [apply Hc|exact Hs].
Qed.

#[local] Instance Segmental_unlinked : Segmental (Forall (fun e => is_link e = false)).
Proof.
  apply Segmental_Forall; try reflexivity.
  intros e He. destruct e as [| | | |s| | | | |]; try reflexivity; try discriminate.
Qed.

#[local] Instance Segmental_to_tx : Segmental (Forall to_tx).
Proof.
  apply Segmental_Forall; try exact I; try reflexivity.
  intros e He. destruct e as [| | | |s u d| | | | |]; try exact I.
  simpl in *. destruct s; try discriminate; now apply String.eqb_eq.
Qed.

#[local] Instance Segmental_below_warn : Segmental (Forall below_warn).
Proof.
  apply Segmental_Forall; try (intros; exact I).
  intros e He. destruct e as [l m| | | | | | | | |]; try exact I.
  destruct l; try discriminate; reflexivity.
Qed.

#[local] Instance Segmental_not_acquire : Segmental (Forall not_acquire).
Proof.
  apply Segmental_Forall; try (intros; exact I).
  intros e He. destruct e; try exact I. discriminate.
Qed.

Lemma paced_app (a b : list event) : paced a -> paced b -> paced (a ++ b).
Proof.
  intros Ha Hb. induction Ha as [|u c es _ IH|e es He _ IH]; simpl.
  - exact Hb.
  - now apply paced_chunk.
  - now apply paced_other.
Qed.

#[local] Instance Segmental_paced : Segmental paced.
Proof.
  split.
  - constructor.
  - apply paced_app.
  - intros e He. apply paced_other; [|constructor].
    destruct e as [| | | |s u d| | | | |]; try exact I; try discriminate.
    destruct s; try exact I. discriminate.
  - intros c. apply paced_chunk. constructor.
Qed.

Lemma links_none (es : list event) :
  Forall (fun e => is_link e = false) es -> links es = [].
Proof.
  induction 1 as [|e es He _ IH]; [reflexivity|].
  unfold links in *. simpl. now rewrite He.
Qed.

Lemma links_app (a b : list event) : links (a ++ b) = links a ++ links b.
Proof. apply filter_app. Qed.

(** X1. The connection is released exactly once.  In every run, whatever
    its outcome, the trace holds no connection and no disconnection when
    the device is not resolved or the connection fails; otherwise it holds
    exactly one connection, to the resolved address, and exactly one
    disconnection, which is the last event of the run. *)
Theorem run_ble_releases_once (w : World) (device : option string) :
  let tr := fst (run_ble w device []) in
  match snd (get_device_address w device []) with
  | Ok a =>
      match w.(connect) a with
      | Ok _ =>
          links tr = [Connect a; Disconnect] /\
          exists tr', tr = tr' ++ [Disconnect]
      | Raise _ => links tr = []
      end
  | Raise _ => links tr = []
  end.
Proof.
  destruct (run_ble_shape (Q := Forall (fun e => is_link e = false)) w device)
    as (es0 & r0 & E0 & Q0 & H).
  rewrite E0. cbv zeta. simpl snd.
  pose proof (links_none Q0) as L0.
  destruct r0 as [a|[m|m|m]].
  - destruct (connect w a) as [client|e].
    + destruct H as (es & r & Qes & ->). simpl fst.
      split.
      * pose proof (links_none Qes) as Les. unfold links in *.
        rewrite filter_app, L0. simpl. rewrite !filter_app, Les.
        destruct (is_bluez client); reflexivity.
      * exists (es0 ++ [Log INFO (MsgConnecting a); Connect a]
                  ++ (if is_bluez client then [AcquireMtu] else []) ++ es).
        now rewrite <- !app_assoc.
    + rewrite H. simpl fst. now rewrite links_app, L0.
  - now rewrite H.
  - rewrite H. simpl fst. now rewrite links_app, L0.
  - now rewrite H.
Qed.

(** X2. The writes are paced.  In every run each write of a fragment is
    followed at once by a pause of [WAIT_AFTER_EACH_CHUNK_S], and the run
    pauses nowhere else: not after the preamble and not after the flush. *)
Theorem run_ble_paced (w : World) (device : option string) :
  paced (fst (run_ble w device [])).
Proof.
  destruct (run_ble_shape (Q := paced) w device) as (es0 & r0 & E0 & Q0 & H).
  destruct r0 as [a|[m|m|m]].
  - destruct (connect w a) as [client|e].
    + destruct H as (es & r & Qes & ->). simpl fst.
      apply paced_app; [exact Q0|].
      apply paced_other; [exact I|]. apply paced_other; [exact I|].
      apply paced_app.
      * destruct (is_bluez client); repeat constructor.
      * apply paced_app; [exact Qes|]. repeat constructor.
    + rewrite H. simpl fst. apply paced_app; [exact Q0|]. repeat constructor.
  - now rewrite H.
  - rewrite H. simpl fst. apply paced_app; [exact Q0|]. repeat constructor.
  - now rewrite H.
Qed.

(** X3. Every write of every run goes to the TX characteristic. *)
Theorem run_ble_writes_to_tx (w : World) (device : option string) :
  Forall to_tx (fst (run_ble w device [])).
Proof.
  destruct (run_ble_shape (Q := Forall to_tx) w device)
    as (es0 & r0 & E0 & Q0 & H).
  destruct r0 as [a|[m|m|m]].
  - destruct (connect w a) as [client|e].
    + destruct H as (es & r & Qes & ->). simpl fst.
      apply Forall_app; split; [exact Q0|].
      apply Forall_cons; [exact I|]. apply Forall_cons; [exact I|].
      apply Forall_app; split; [destruct (is_bluez client); repeat constructor|].
      apply Forall_app; split; [exact Qes|repeat constructor].
    + rewrite H. simpl fst. apply Forall_app. split; [exact Q0|repeat constructor].
  - now rewrite H.
  - rewrite H. simpl fst. apply Forall_app. split; [exact Q0|repeat constructor].
  - now rewrite H.
Qed.

Lemma console_app (l : Level) (a b : list event) :
  console l (a ++ b) = console l a ++ console l b.
Proof. apply flat_map_app. Qed.

Lemma console_below_warn (l : Level) (es : list event) :
  level_no WARN <= level_no l -> Forall below_warn es -> console l es = [].
Proof.
  intros Hl. induction 1 as [|e es He _ IH]; [reflexivity|].
  change (e :: es) with ([e] ++ es). rewrite console_app, IH, app_nil_r.
  destruct e as [l' m| | | | | | | | |]; try reflexivity.
  simpl in *. destruct (Z.leb_spec (level_no l) (level_no l')); [lia|reflexivity].
Qed.

(** X4. At the log levels [warn] and [error] a run is silent unless the
    printer is not found: the only record a run logs at or above [WARN]
    is the error of the failed resolution. *)
Theorem run_ble_logs_only_not_found (w : World) (device : option string)
    (c : LogChoice) :
  c = warn \/ c = error ->
  console (logging_level c) (fst (run_ble w device [])) =
    match snd (get_device_address w device []) with
    | Raise (RuntimeError m) => [MsgStop (RuntimeError m)]
    | _ => []
    end.
Proof.
  intros Hc.
  assert (Hl : level_no WARN <= level_no (logging_level c))
    by (destruct Hc as [-> | ->]; simpl; lia).
  destruct (run_ble_shape (Q := Forall below_warn) w device)
    as (es0 & r0 & E0 & Q0 & H).
  rewrite E0. simpl snd.
  pose proof (console_below_warn _ Hl Q0) as C0.
  destruct r0 as [a|[m|m|m]].
  - destruct (connect w a) as [client|e].
    + destruct H as (es & r & Qes & ->). simpl fst.
      rewrite console_app, C0. simpl.
      destruct (Z.leb_spec (level_no (logging_level c)) 20);
        [destruct Hc as [-> | ->]; simpl in *; lia|].
      rewrite !console_app, (console_below_warn _ Hl Qes).
      destruct (is_bluez client); reflexivity.
    + rewrite H. simpl fst. rewrite console_app, C0. simpl.
      destruct (Z.leb_spec (level_no (logging_level c)) 20);
        [destruct Hc as [-> | ->]; simpl in *; lia|reflexivity].
  - now rewrite H.
  - rewrite H. simpl fst. rewrite console_app, C0. simpl.
    destruct Hc as [-> | ->]; reflexivity.
  - now rewrite H.
Qed.

Lemma run_ble_logs_only_not_found_witness :
  console (logging_level error) (fst (run_ble Demo.nearby None [])) = [] /\
  console (logging_level warn) (fst (run_ble Demo.absent None [])) =
    [MsgStop not_found].
Proof.
  split.
  - exact (run_ble_logs_only_not_found Demo.nearby None (or_intror eq_refl)).
  - exact (run_ble_logs_only_not_found Demo.absent None (or_introl eq_refl)).
Defined.

(** X5. The MTU is acquired at most once, and only at the start of the
    session: in a run that connects, [_acquire_mtu] is called right after
    the connection exactly when the client is an instance of the BlueZ
    backend class, and nowhere else; in a run that does not connect it is
    never called. *)
Theorem run_ble_negotiates_once (w : World) (device : option string) :
  let tr := fst (run_ble w device []) in
  match snd (get_device_address w device []) with
  | Ok a =>
      match w.(connect) a with
      | Ok client =>
          exists es0 es,
            tr = es0 ++ Connect a
                   :: (if client.(is_bluez) then [AcquireMtu] else []) ++ es /\
            Forall not_acquire es0 /\ Forall not_acquire es
      | Raise _ => Forall not_acquire tr
      end
  | Raise _ => Forall not_acquire tr
  end.
Proof.
  destruct (run_ble_shape (Q := Forall not_acquire) w device)
    as (es0 & r0 & E0 & Q0 & H).
  rewrite E0. cbv zeta. simpl snd.
  destruct r0 as [a|[m|m|m]].
  - destruct (connect w a) as [client|e].
    + destruct H as (es & r & Qes & ->). simpl fst.
      exists (es0 ++ [Log INFO (MsgConnecting a)]), (es ++ [Disconnect]).
      split; [now rewrite <- !app_assoc|].
      split; apply Forall_app; split; trivial; repeat constructor.
    + rewrite H. simpl fst. apply Forall_app. split; [exact Q0|repeat constructor].
  - now rewrite H.
  - rewrite H. simpl fst. apply Forall_app. split; [exact Q0|repeat constructor].
  - now rewrite H.
Qed.

(** X6. A failed connection is not caught.  When the device is resolved
    and connecting raises, [run_ble] raises the same exception, also when
    it is a [RuntimeError]: the handler covers the resolution only.
    Nothing is written and nothing is disconnected. *)
Theorem run_ble_connect_failure (w : World) (device : option string)
    (es0 : list event) (a : Address) (e : exn) :
  get_device_address w device [] = (es0, Ok a) ->
  w.(connect) a = Raise e ->
  run_ble w device [] = (es0 ++ [Log INFO (MsgConnecting a)], Raise e) /\
  writes (fst (run_ble w device [])) = [] /\
  links (fst (run_ble w device [])) = [].
Proof.
  intros Hg Hc.
  destruct (run_ble_shape (Q := Forall (fun e => is_link e = false)) w device)
    as (es0' & r0 & E0 & Q0 & H).
  rewrite Hg in E0. injection E0 as <- <-. rewrite Hc in H.
  rewrite H. simpl fst. split; [reflexivity|].
  destruct (get_device_address_quiet w device []) as (es & E & Qq).
  rewrite Hg in E. simpl in E. subst es.
  split.
  - now rewrite writes_app, (quiet_writes Qq).
  - now rewrite links_app, (links_none Q0).
Qed.

Lemma run_ble_connect_failure_witness :
  run_ble (Faults.refusing Demo.nearby (RuntimeError "busy"))
          (Some "AA:BB:CC:DD:EE:FF") [] =
    ([Log INFO (MsgConnecting (AddrStr "AA:BB:CC:DD:EE:FF"))],
     Raise (RuntimeError "busy")).
Proof.
  exact (proj1 (@run_ble_connect_failure
                  (Faults.refusing Demo.nearby (RuntimeError "busy"))
                  (Some "AA:BB:CC:DD:EE:FF") []
                  (AddrStr "AA:BB:CC:DD:EE:FF") (RuntimeError "busy")
                  eq_refl eq_refl)).
Defined.

(** ** A failed write ends the writing *)

Section Preserves.

Variable I : list event -> Prop.

Lemma preserves_bind (A B : Type) (m : M A) (k : A -> M B) :
  preserves I m -> (forall a, preserves I (k a)) -> preserves I (bind m k).
Proof.
  intros Hm Hk tr Htr. unfold bind. specialize (Hm tr Htr).
  destruct (m tr) as [tr' [a|e]]; simpl in *; [now apply Hk|exact Hm].
Qed.

Lemma preserves_ret (A : Type) (a : A) : preserves I (ret a).
Proof. intros tr Htr. exact Htr. Qed.

Lemma preserves_lift (A : Type) (r : result A) : preserves I (lift r).
Proof. intros tr Htr. exact Htr. Qed.

Lemma preserves_for_each (A : Type) (xs : list A) (body : A -> M unit) :
  (forall x, preserves I (body x)) -> preserves I (for_each xs body).
Proof.
  intros Hb. induction xs as [|x xs IH]; simpl.
  - apply preserves_ret.
  - apply preserves_bind; [apply Hb|intros _; exact IH].
Qed.

Lemma preserves_for_gen (A : Type) (g : gen A) (body : A -> M unit) :
  console_only g ->
  (forall es, quiet es -> preserves I (emit_all es)) ->
  (forall x, preserves I (body x)) -> preserves I (for_gen g body).
Proof.
  intros Hg He Hb. induction g as [pre|pre x rest IH]; simpl in *.
  - apply He, Hg.
  - destruct Hg as (Hpre & _ & Hrest).
    apply preserves_bind; [now apply He|intros _].
    apply preserves_bind; [apply Hb|intros _; now apply IH].
Qed.

End Preserves.

Lemma writes_count (tr : list event) :
  List.length (filter (fun e => match e with Write _ _ _ => true | _ => false end) tr)
  = List.length (writes tr).
Proof.
  induction tr as [|e tr IH]; [reflexivity|].
  destruct e; simpl; rewrite ?IH; reflexivity.
Qed.

Section Dropped.

Variables (w : World) (n : nat).
Hypothesis Hdrop : w.(write_ok) n = false.

Let bounded (tr : list event) : Prop := (List.length (writes tr) <= n)%nat.

Lemma bounded_silent (tr es : list event) :
  writes es = [] -> bounded tr -> bounded (tr ++ es).
Proof.
  unfold bounded. intros He Htr. now rewrite writes_app, He, app_nil_r.
Qed.

Lemma bounded_write (site : Site) (u : string) (data : bytes) :
  preserves bounded (write_gatt_char w site u data).
Proof.
  intros tr Htr. unfold write_gatt_char. rewrite writes_count.
  destruct (write_ok w (List.length (writes tr))) eqn:E; simpl; [|exact Htr].
  unfold bounded in *. rewrite writes_app, length_app. simpl.
  assert (List.length (writes tr) <> n) by (intros Hn; rewrite Hn in E; congruence).
  lia.
Qed.

Lemma bounded_emit (e : event) :
  writes [e] = [] -> preserves bounded (emit e).
Proof. intros He tr Htr. unfold emit. simpl. now apply bounded_silent. Qed.

Lemma bounded_print_text (cs : Z) (text : string) :
  preserves bounded (print_text w cs text).
Proof.
  destruct text as [|c t]; [apply preserves_ret|].
  unfold print_text. apply preserves_bind.
  { intros tr Htr.
    destruct (text_to_image_obs w (String c t) tr) as (es & E & W & _).
    rewrite E. simpl. now apply bounded_silent. }
  intros img. apply preserves_bind; [now apply bounded_emit|intros _].
  apply preserves_bind; [apply preserves_lift|intros chunks].
  apply preserves_for_each. intros chunk.
  apply preserves_bind; [apply bounded_write|intros _].
  now apply bounded_emit.
Qed.

Lemma bounded_session (client : Client) : preserves bounded (session w client).
Proof.
  unfold session. apply preserves_bind.
  { destruct (is_bluez client); [|apply preserves_ret].
    apply preserves_bind; [now apply bounded_emit|intros _; apply preserves_lift]. }
  intros c. apply preserves_bind; [now apply bounded_emit|intros _].
  apply preserves_bind; [apply bounded_write|intros _].
  apply preserves_bind.
  { apply preserves_for_gen.
    - apply get_input_lines_console_only.
    - intros es Hq tr Htr. rewrite emit_all_trace. simpl.
      apply bounded_silent; [now apply quiet_writes|exact Htr].
    - intros x. apply bounded_print_text. }
  intros _. apply preserves_bind; [apply bounded_write|intros _].
  now apply bounded_emit.
Qed.

(** X7. A failed write ends the writing.  When the write after [n]
    completed writes fails, no run completes more than [n] writes:
    nothing is written behind a fragment that could not be sent, and in
    particular the flush is not. *)
Theorem run_ble_stops_at_failed_write (device : option string) :
  (List.length (writes (fst (run_ble w device []))) <= n)%nat.
Proof.
  destruct (run_ble_shape (Q := Forall to_tx) w device)
    as (es0 & r0 & E0 & _ & H).
  destruct (get_device_address_quiet w device []) as (es & E & Qq).
  rewrite E0 in E. simpl in E. subst es.
  pose proof (quiet_writes Qq) as W0.
  assert (B0 : forall tail, writes tail = [] -> bounded (es0 ++ tail)).
  { intros tail Ht. unfold bounded. rewrite writes_app, W0, Ht. simpl. lia. }
  assert (Hrun : run_ble w device [] =
    match r0 with
    | Raise (RuntimeError m) =>
        (es0 ++ [Log ERROR (MsgStop (RuntimeError m))], Ok tt)
    | Raise e => (es0, Raise e)
    | Ok a =>
        with_client w a (session w) (es0 ++ [Log INFO (MsgConnecting a)])
    end).
  { unfold run_ble, try_RuntimeError. unfold bind at 1. unfold bind at 1.
    rewrite E0. destruct r0 as [a|[m|m|m]]; reflexivity. }
  rewrite Hrun. clear Hrun H.
  destruct r0 as [a|[m|m|m]]; simpl fst.
  - unfold with_client. destruct (connect w a) as [client|e]; simpl fst.
    + pose proof (@bounded_session client
                    ((es0 ++ [Log INFO (MsgConnecting a)]) ++ [Connect a])) as Hs.
      destruct (session w client _) as [tr' r]. simpl in *.
      apply (@bounded_silent tr' [Disconnect] eq_refl).
      apply Hs. rewrite <- app_assoc. now apply B0.
    + now apply B0.
  - specialize (B0 [] eq_refl). now rewrite app_nil_r in B0.
  - now apply B0.
  - specialize (B0 [] eq_refl). now rewrite app_nil_r in B0.
Qed.

End Dropped.

Lemma run_ble_stops_at_failed_write_witness :
  Demo.nearby.(write_ok) 3%nat = true /\
  (Faults.dropping Demo.nearby 3).(write_ok) 3%nat = false /\
  (List.length (writes (fst (run_ble (Faults.dropping Demo.nearby 3) None [])))
   <= 3)%nat.
Proof.
  split; [reflexivity|]. split; [reflexivity|].
  exact (@run_ble_stops_at_failed_write
           (Faults.dropping Demo.nearby 3) 3 eq_refl None).
Defined.

Example dropped_link_trace :
  sites (fst (run_ble (Faults.dropping Demo.nearby 3) None [])) =
    [AtPrepare; AtChunk; AtChunk] /\
  snd (run_ble (Faults.dropping Demo.nearby 3) None []) =
    Raise (BleakError "write failed").
Proof. split; reflexivity. Qed.

(** ** More on [chunkify] *)

(** X8. For a positive size no fragment is empty: [chunkify] never makes
    the program write zero bytes. *)
Theorem chunkify_no_empty_fragment (B : bytes) (F : Z) (frags : list bytes) :
  0 < F -> chunkify B F = Ok frags -> Forall (fun c => c <> []) frags.
Proof.
  intros HF H. rewrite (chunkify_frames B HF) in H. injection H as <-.
  pose proof (ceil_div_nat (length B) HF) as [_ Hlo]. simpl in Hlo.
  unfold Py.len.
  set (n := Z.to_nat (ceil_div (Z.of_nat (length B)) F)) in *.
  apply Forall_forall. intros c Hc.
  unfold frames in Hc. apply in_map_iff in Hc as (k & <- & Hk).
  apply in_seq in Hk.
  destruct Hlo as [[Hn _]|[_ Hlast]]; [lia|].
  assert (k * Z.to_nat F <= (n - 1) * Z.to_nat F)%nat by nia.
  intros E. apply (f_equal (@length byte)) in E.
  rewrite length_span in E. simpl in E. lia.
Qed.

Lemma chunkify_no_empty_fragment_witness :
  Forall (fun c => c <> []) [[x01; x02]; [x03]]%byte.
Proof.
  exact (@chunkify_no_empty_fragment [x01; x02; x03]%byte 2 _
           ltac:(lia) eq_refl).
Defined.

(** X9. The edges: an empty buffer yields no fragment, whatever the size
    other than [0]; a non-empty buffer that fits in one fragment is
    yielded as it is, in one piece. *)
Theorem chunkify_small :
  (forall F : Z, F <> 0 -> chunkify [] F = Ok []) /\
  (forall (B : bytes) (F : Z),
     B <> [] -> Py.len B <= F -> chunkify B F = Ok [B]).
Proof.
  split.
  - intros F HF. destruct (Z.lt_trichotomy F 0) as [H|[H|H]]; [|lia|].
    + now apply chunkify_negative.
    + rewrite (chunkify_frames [] H). unfold ceil_div, Py.len. simpl.
      rewrite Z.div_small by lia. reflexivity.
  - intros B F HB Hlen.
    assert (Hpos : 0 < Py.len B).
    { unfold Py.len. destruct B; [congruence|simpl; lia]. }
    assert (HF : 0 < F) by lia.
    rewrite (chunkify_frames B HF).
    assert (E : ceil_div (Py.len B) F = 1).
    { unfold ceil_div. symmetry. apply Z.div_unique with (r := Py.len B - 1); lia. }
    rewrite E. change (Z.to_nat 1) with 1%nat.
    unfold frames, span. cbn [seq map Nat.mul skipn].
    rewrite firstn_all2 by (unfold Py.len in Hlen; lia). reflexivity.
Qed.

Lemma chunkify_small_witness :
  chunkify [x01; x02; x03]%byte 20 = Ok [[x01; x02; x03]%byte].
Proof.
  apply (proj2 chunkify_small); [discriminate|vm_compute; discriminate].
Defined.

Lemma seq_from (n m : nat) : seq n m = map (Nat.add n) (seq 0 m).
Proof.
  revert n. induction m as [|m IH]; intros n; [reflexivity|].
  simpl. rewrite Nat.add_0_r. f_equal.
  rewrite (IH (S n)), (IH 1%nat), map_map. apply map_ext. intros k. lia.
Qed.

Lemma frames_app (A : Type) (B : list A) (F n m : nat) :
  frames B F (n + m) = frames B F n ++ frames (skipn (n * F) B) F m.
Proof.
  unfold frames. rewrite seq_app, map_app. f_equal.
  simpl. rewrite (seq_from n m), map_map. apply map_ext. intros k.
  unfold span. rewrite skipn_skipn. f_equal. f_equal. lia.
Qed.

Lemma frames_prefix (A : Type) (B1 B2 : list A) (F n : nat) :
  (n * F <= length B1)%nat -> frames (B1 ++ B2) F n = frames B1 F n.
Proof.
  intros Hn. unfold frames. apply map_ext_in. intros k Hk.
  apply in_seq in Hk. unfold span.
  assert (k * F + F <= n * F)%nat by nia.
  rewrite skipn_app, firstn_app, length_skipn.
  replace (F - (length B1 - k * F))%nat with 0%nat by lia.
  now rewrite firstn_O, app_nil_r.
Qed.

(** X10. Buffers compose: when the first buffer is a whole number of
    fragments long, the fragments of the concatenation are the fragments
    of the first buffer followed by those of the second. *)
Theorem chunkify_app (B1 B2 : bytes) (F m : Z) :
  0 < F -> 0 <= m -> Py.len B1 = m * F ->
  exists f1 f2,
    chunkify B1 F = Ok f1 /\ chunkify B2 F = Ok f2 /\
    chunkify (B1 ++ B2) F = Ok (f1 ++ f2).
Proof.
  intros HF Hm Hlen.
  rewrite !(chunkify_frames _ HF). eexists _, _.
  split; [reflexivity|]. split; [reflexivity|]. f_equal.
  assert (E1 : ceil_div (Py.len B1) F = m).
  { unfold ceil_div. rewrite Hlen.
    replace (m * F + F - 1) with (m * F + (F - 1)) by lia.
    rewrite Z.div_add_l by lia. rewrite Z.div_small by lia. lia. }
  assert (E12 : ceil_div (Py.len (B1 ++ B2)) F = m + ceil_div (Py.len B2) F).
  { unfold ceil_div, Py.len in *. rewrite length_app, Nat2Z.inj_add, Hlen.
    replace (m * F + Z.of_nat (length B2) + F - 1)
      with (m * F + (Z.of_nat (length B2) + F - 1)) by lia.
    now rewrite Z.div_add_l by lia. }
  pose proof (@ceil_div_nonneg (Py.len B2) F ltac:(unfold Py.len; lia) HF).
  rewrite E1, E12, Z2Nat.inj_add by lia.
  assert (El : length B1 = (Z.to_nat m * Z.to_nat F)%nat)
    by (unfold Py.len in Hlen; nia).
  rewrite frames_app. f_equal.
  - apply frames_prefix. lia.
  - rewrite <- El, skipn_app, Nat.sub_diag, skipn_all. reflexivity.
Qed.

Lemma chunkify_app_witness :
  chunkify ([x01; x02; x03; x04] ++ [x05; x06; x07])%byte 2 =
    Ok ([[x01; x02]; [x03; x04]] ++ [[x05; x06]; [x07]])%byte.
Proof.
  destruct (@chunkify_app [x01; x02; x03; x04]%byte [x05; x06; x07]%byte 2 2
              ltac:(lia) ltac:(lia) eq_refl) as (f1 & f2 & H1 & H2 & H).
  injection H1 as <-. injection H2 as <-. exact H.
Defined.

(** X11. Positions are kept: byte [i] of the buffer is byte [i mod F] of
    fragment [i / F]. *)
Theorem chunkify_index (B : bytes) (F : Z) (frags : list bytes) (i : nat) :
  0 < F -> chunkify B F = Ok frags -> (i < length B)%nat ->
  exists frag,
    nth_error frags (i / Z.to_nat F) = Some frag /\
    nth_error frag (i mod Z.to_nat F) = nth_error B i.
Proof.
  intros HF H Hi. rewrite (chunkify_frames B HF) in H. injection H as <-.
  pose proof (ceil_div_nat (length B) HF) as [Hhi _]. simpl in Hhi.
  unfold Py.len.
  set (n := Z.to_nat (ceil_div (Z.of_nat (length B)) F)) in *.
  set (Fn := Z.to_nat F) in *.
  assert (HFn : (0 < Fn)%nat) by (unfold Fn; lia).
  assert (Hk : (i / Fn < n)%nat).
  { apply Nat.Div0.div_lt_upper_bound. lia. }
  exists (span B (i / Fn * Fn) Fn).
  split; [now apply nth_error_frames|].
  unfold span. rewrite nth_error_firstn.
  pose proof (Nat.mod_upper_bound i Fn ltac:(lia)) as Hm.
  destruct (Nat.ltb_spec (i mod Fn) Fn); [|lia].
  rewrite nth_error_skipn. f_equal.
  pose proof (Nat.div_mod_eq i Fn). lia.
Qed.

Lemma chunkify_index_witness :
  exists frag,
    nth_error [[x01; x02]; [x03; x04]; [x05]]%byte (4 / Z.to_nat 2) = Some frag /\
    nth_error frag (4 mod Z.to_nat 2) = nth_error [x01; x02; x03; x04; x05]%byte 4.
Proof.
  exact (@chunkify_index [x01; x02; x03; x04; x05]%byte 2 _ 4
           ltac:(lia) eq_refl ltac:(simpl; lia)).
Defined.

(** ** More on scanning and resolution *)

(** X12. The first match wins.  When the advertisements received within
    the timeout are some that do not match, then one that does, then any
    others, [scan] returns the device of the first matching one, having
    logged the search and the device found. *)
Theorem scan_first_match_wins (w : World) (name : option string)
    (timeout : Z) (tr : list event)
    (pre post : list (BLEDevice * AdvertisementData))
    (d : BLEDevice) (a : AdvertisementData) :
  let autodiscover := negb (Str.truthy name) in
  w.(advertisements) timeout = pre ++ (d, a) :: post ->
  (forall d' a', In (d', a') pre -> matches autodiscover name d' a' = false) ->
  matches autodiscover name d a = true ->
  scan w name timeout tr =
    (tr ++ [Log INFO (if autodiscover then MsgAutoDiscovering
                      else MsgSearching name);
            Scan timeout; Log INFO (MsgFound d)],
     Ok d).
Proof.
  intros autodiscover Hadv Hpre Hm. rewrite scan_unfold. cbv zeta.
  fold autodiscover. rewrite Hadv.
  rewrite find_first; [|intros [d' a'] Hin; now apply Hpre|exact Hm].
  simpl. now rewrite <- !app_assoc.
Qed.

Lemma scan_first_match_wins_witness :
  scan Demo.nearby None 10 [] =
    ([Log INFO MsgAutoDiscovering; Scan 10; Log INFO (MsgFound Demo.printer)],
     Ok Demo.printer).
Proof.
  apply (@scan_first_match_wins Demo.nearby None 10 []
           [(Demo.headset, Demo.headset_adv)] [] Demo.printer Demo.printer_adv).
  - reflexivity.
  - intros d' a' [E|[]]. injection E as <- <-. reflexivity.
  - reflexivity.
Defined.

(** X13. An empty identifier is an omitted one.  [run_ble] with the empty
    string runs as with [None], so [main] with the default of [--device]
    auto-discovers the printer by its services; the name of a device plays
    no part in that search. *)
Theorem empty_device_autodiscovers (w : World) :
  (forall tr, run_ble w (Some EmptyString) tr = run_ble w None tr) /\
  (forall args : Args,
     args.(device) = EmptyString ->
     main w args =
       (console (logging_level args.(log_level)) (fst (run_ble w None [])),
        snd (run_ble w None []))) /\
  (forall d d' a,
     matches (negb (Str.truthy (Some EmptyString))) (Some EmptyString) d a
     = matches (negb (Str.truthy None)) None d' a).
Proof.
  split; [|split].
  - reflexivity.
  - intros args Hd. unfold main. rewrite Hd.
    change (run_ble w (Some EmptyString) []) with (run_ble w None []).
    now destruct (run_ble w None []).
  - reflexivity.
Qed.

Lemma empty_device_autodiscovers_witness :
  main Demo.absent {| log_level := error; device := "" |} =
    ([MsgStop not_found], Ok tt).
Proof.
  exact (proj1 (proj2 (empty_device_autodiscovers Demo.absent))
           {| log_level := error; device := "" |} eq_refl).
Defined.

(** X14. What the resolution can do.  For an identifier of ASCII
    characters, either it returns an address string and leaves the trace
    as it was, without logging and without scanning; or it is exactly the
    scan for the original identifier.  A device it returns is one that
    was advertised within the scan timeout and that the filter of the
    scan accepts. *)
Theorem get_device_address_outcomes (w : World) (device : option string)
    (tr : list event) (Hascii : ascii_identifier device = true) :
  ((exists a, get_device_address w device tr = (tr, Ok (AddrStr a))) \/
   get_device_address w device tr = scanning w device tr) /\
  (forall d, snd (get_device_address w device tr) = Ok (AddrDev d) ->
     exists adv,
       In (d, adv) (w.(advertisements) SCAN_TIMEOUT_S) /\
       matches (negb (Str.truthy device)) device d adv = true).
Proof.
  assert (Hscan : forall r, snd (scanning w device tr) = r ->
            match r with
            | Raise e => True
            | Ok (AddrDev d) =>
                exists adv,
                  In (d, adv) (w.(advertisements) SCAN_TIMEOUT_S) /\
                  matches (negb (Str.truthy device)) device d adv = true
            | Ok (AddrStr _) => False
            end).
  { intros r <-. unfold scanning, bind. rewrite scan_unfold. cbv zeta.
    destruct (find _ _) as [[d adv]|] eqn:Hf; simpl; [|exact I].
    apply find_some in Hf as [Hin Hm]. eauto. }
  assert (Hcases : (exists a, get_device_address w device tr = (tr, Ok (AddrStr a)))
                   \/ get_device_address w device tr = scanning w device tr).
  { clear Hascii. destruct device as [s|]; [|now right].
    rewrite get_device_address_cases. destruct s as [|c s]; [now right|].
    destruct (uuid.UUID _); [left; eauto|].
    destruct (five_colons_alnum _); [left; eauto|now right]. }
  split; [exact Hcases|].
  destruct Hcases as [[a E]|E]; rewrite E; simpl.
  - intros d [=].
  - intros d Hd. exact (Hscan _ Hd).
Qed.

Lemma get_device_address_outcomes_witness :
  ascii_identifier (Some "GT01") = true /\
  snd (get_device_address Demo.nearby (Some "GT01") []) = Ok (AddrDev Demo.printer) /\
  exists adv,
    In (Demo.printer, adv) (Demo.nearby.(advertisements) SCAN_TIMEOUT_S) /\
    matches (negb (Str.truthy (Some "GT01"))) (Some "GT01") Demo.printer adv = true.
Proof.
  split; [reflexivity|]. split; [reflexivity|].
  exact (proj2 (@get_device_address_outcomes Demo.nearby (Some "GT01") [] eq_refl)
           Demo.printer eq_refl).
Defined.

(** ** The input lines *)

Lemma rstrip_by_split (p : ascii -> bool) (s : string) :
  exists tail,
    s = (Str.rstrip_by p s ++ tail)%string /\ Str.all_chars p tail = true.
Proof.
  induction s as [|c r (tail & E & Ht)]; [now exists EmptyString|].
  simpl. destruct (Str.rstrip_by p r) as [|d y] eqn:Ey.
  - simpl in E. subst r. destruct (p c) eqn:Hc.
    + exists (String c tail). simpl. now rewrite Hc.
    + now exists tail.
  - exists tail. simpl. split; [now rewrite E at 1|exact Ht].
Qed.

Lemma rstrip_by_idem (p : ascii -> bool) (s : string) :
  Str.rstrip_by p (Str.rstrip_by p s) = Str.rstrip_by p s.
Proof.
  induction s as [|c r IH]; [reflexivity|].
  simpl. destruct (Str.rstrip_by p r) as [|d y] eqn:Ey.
  - destruct (p c) eqn:Hc; [reflexivity|]. simpl. now rewrite Hc.
  - cbn [Str.rstrip_by]. cbn [Str.rstrip_by] in IH. rewrite IH. reflexivity.
Qed.

Lemma all_newlines (tail : string) :
  Str.all_chars is_newline tail = true -> tail = newlines (String.length tail).
Proof.
  unfold newlines. induction tail as [|c r IH]; [reflexivity|].
  simpl. intros H. apply andb_prop in H as [Hc Hr].
  unfold is_newline in Hc. simpl in Hc. rewrite orb_false_r in Hc.
  apply Ascii.eqb_eq in Hc. subst c. now rewrite <- IH.
Qed.

(** X15. Piped input.  When the input is not a terminal, one line is
    yielded for every line of the input, blank ones included; each is the
    input line without its trailing newlines, and nothing else is taken
    from it. *)
Theorem piped_input_lines (w : World) :
  w.(stdin_isatty) = false ->
  Forall2 (fun line y =>
             (exists k, line = (y ++ newlines k)%string) /\
             Str.rstrip_chars y (String "010" "") = y)
          w.(stdin_lines) (yields (get_input_lines w)).
Proof.
  intros Htty. unfold get_input_lines. rewrite Htty. simpl negb. cbv iota.
  induction (stdin_lines w) as [|l ls IH]; simpl; constructor; [|exact IH].
  unfold Str.rstrip_chars. split.
  - destruct (rstrip_by_split (fun c => Str.mem c (String "010" "")) l)
      as (tail & E & Ht).
    exists (String.length tail). rewrite <- (all_newlines tail Ht). exact E.
  - apply rstrip_by_idem.
Qed.

Lemma piped_input_lines_witness :
  Forall2 (fun line y =>
             (exists k, line = (y ++ newlines k)%string) /\
             Str.rstrip_chars y (String "010" "") = y)
          Demo.piped_text ["hello"; ""; "world"].
Proof. exact (piped_input_lines Demo.nearby eq_refl). Defined.

Lemma lstrip_by_head (p : ascii -> bool) (s : string) :
  Str.lstrip_by p s = EmptyString \/
  exists c r, Str.lstrip_by p s = String c r /\ p c = false.
Proof.
  induction s as [|c r IH]; [now left|].
  simpl. destruct (p c) eqn:Hc; [exact IH|]. right. eauto.
Qed.

Lemma rstrip_by_head (p : ascii -> bool) (c : ascii) (r : string) :
  p c = false -> exists r', Str.rstrip_by p (String c r) = String c r'.
Proof.
  intros Hc. simpl. destruct (Str.rstrip_by p r); [rewrite Hc|]; eauto.
Qed.

Lemma strip_by_idem (p : ascii -> bool) (s : string) :
  Str.strip_by p (Str.strip_by p s) = Str.strip_by p s.
Proof.
  unfold Str.strip_by.
  destruct (lstrip_by_head p s) as [E|(c & r & E & Hc)]; rewrite E.
  - reflexivity.
  - destruct (rstrip_by_head p c r Hc) as [r' E'].
    assert (Hl : Str.lstrip_by p (Str.rstrip_by p (String c r))
                 = Str.rstrip_by p (String c r)).
    { rewrite E'. simpl. now rewrite Hc. }
    rewrite Hl. apply rstrip_by_idem.
Qed.

Lemma interactive_yields_ok (typed : list string) (pending : list event) :
  Forall (fun y => y <> EmptyString /\ Str.strip y = y /\ exit_word y = false)
         (yields (interactive_lines typed pending)).
Proof.
  revert pending. induction typed as [|l ls IH]; intros pending;
    cbn [interactive_lines yields].
  - constructor.
  - destruct (Str.strip l) as [|c s] eqn:El; [apply IH|].
    destruct (str_in (Str.lower (String c s)) ["exit"; "quit"]) eqn:Ex;
      cbn [yields].
    + constructor.
    + constructor; [|apply IH].
      assert (Hs : Str.strip (String c s) = String c s).
      { rewrite <- El. apply strip_by_idem. }
      split; [discriminate|]. split; [exact Hs|].
      unfold exit_word. now rewrite Hs.
Qed.

Lemma interactive_yields_all (typed : list string) (pending : list event) :
  forallb (fun l => negb (exit_word l)) typed = true ->
  yields (interactive_lines typed pending) = nonblank (map Str.strip typed).
Proof.
  revert pending. induction typed as [|l ls IH]; intros pending H;
    cbn [interactive_lines yields map forallb] in *.
  - reflexivity.
  - apply andb_prop in H as [Hl Hls]. apply negb_true_iff in Hl.
    unfold exit_word in Hl. rewrite nonblank_cons.
    destruct (Str.strip l) as [|c s]; [now apply IH|].
    rewrite Hl. cbn [yields]. simpl nonblank. simpl app. f_equal. now apply IH.
Qed.

Lemma interactive_yields_cut (before after : list string) (word : string)
    (p p' : list event) :
  exit_word word = true ->
  yields (interactive_lines (before ++ word :: after) p)
  = yields (interactive_lines before p').
Proof.
  intros Hw. revert p p'. induction before as [|l ls IH]; intros p p';
    cbn [interactive_lines yields app].
  - unfold exit_word in Hw. destruct (Str.strip word) as [|c s]; [discriminate|].
    now rewrite Hw.
  - destruct (Str.strip l) as [|c s]; [apply IH|].
    destruct (str_in _ _); [reflexivity|]. cbn [yields]. f_equal. apply IH.
Qed.

(** X16. Typed input.  At a terminal, when the lines typed are made of
    ASCII characters, every line yielded is stripped of the white space
    around it, is not empty and is no exit word; without an exit word, the
    lines yielded are the stripped lines typed, the blank ones left out;
    and nothing typed from the first [exit] or [quit] on, in any case of
    letters, is yielded. *)
Theorem interactive_input_lines (w : World) :
  w.(stdin_isatty) = true ->
  forallb Str.is_ascii w.(stdin_lines) = true ->
  Forall (fun y => y <> EmptyString /\ Str.strip y = y /\ exit_word y = false)
         (yields (get_input_lines w)) /\
  (forallb (fun l => negb (exit_word l)) w.(stdin_lines) = true ->
     yields (get_input_lines w) = nonblank (map Str.strip w.(stdin_lines))) /\
  (forall (w' : World) before word after,
     w'.(stdin_isatty) = true ->
     w.(stdin_lines) = before ++ word :: after ->
     exit_word word = true ->
     w'.(stdin_lines) = before ->
     yields (get_input_lines w) = yields (get_input_lines w')).
Proof.
  intros Htty _. unfold get_input_lines. rewrite Htty. simpl negb. cbv iota.
  split; [apply interactive_yields_ok|]. split.
  - apply interactive_yields_all.
  - intros w' before word after Htty' Hl Hw Hl'.
    rewrite Htty', Hl, Hl'. simpl negb. cbv iota.
    now apply interactive_yields_cut.
Qed.

Lemma interactive_input_lines_witness :
  (Demo.terminal.(stdin_isatty) = true /\
   forallb Str.is_ascii Demo.terminal.(stdin_lines) = true) /\
  yields (get_input_lines Demo.terminal) = ["hello"; "world"].
Proof.
  split; [split; reflexivity|].
  exact (proj1 (proj2 (interactive_input_lines Demo.terminal eq_refl eq_refl))
           eq_refl).
Defined.

Example typed_quit_ends_input :
  yields (interactive_lines ["  one "; ""; " QUIT "; "two"] []) = ["one"].
Proof. reflexivity. Qed.

(** ** Rendering *)

Lemma threshold_pixels (img : ndarray) :
  Forall2 (fun p q => q = if p <=? 127 then 1 else 0)
          img.(pixels) (threshold_binary_inv img 127 1).(pixels).
Proof.
  simpl. induction (pixels img) as [|p ps IH]; simpl; constructor; [|exact IH].
  destruct (Z.ltb_spec 127 p), (Z.leb_spec p 127); lia || reflexivity.
Qed.

Lemma text_to_image_unfold (w : World) (text : string) (tr : list event) :
  let proc := w.(popen) magick_command (Str.encode text) in
  let tr1 := tr ++ [Log DEBUG (MsgRendering text);
                    Popen magick_command (Str.encode text)] in
  text_to_image w text tr =
    if negb (proc.(returncode) =? 0) then
      (tr1, Raise (RuntimeError
                     ("ImageMagick failed: " ++ Str.decode proc.(stderr))%string))
    else
      match w.(imdecode) proc.(stdout) with
      | None => (tr1, Raise (RuntimeError "Failed to decode PBM image"))
      | Some img =>
          (tr1 ++ [Log DEBUG MsgThresholding; Log DEBUG MsgRenderDone],
           Ok (threshold_binary_inv img 127 1))
      end.
Proof.
  cbv zeta.
  unfold text_to_image, text_to_image_with, magick_text, MagickExe.
  change [_; "-background"; _; _; _; _; _; _; _; _; _; _; _; _; _; _; _; _; _]
    with magick_command.
  unfold bind, log, emit, ret, raise.
  destruct (negb _).
  - now rewrite <- !app_assoc.
  - destruct (imdecode w _); now rewrite <- !app_assoc.
Qed.

(** X17. The rendered image is binary.  For a text of ASCII characters:
    when [text_to_image] returns, the ImageMagick process was given the
    text on its standard input and exited with 0, its output was
    decodable, and the result has the shape of the decoded image with 1
    where the decoded pixel is at most 127 and 0 elsewhere; and whether it
    returns or raises, it writes nothing to the printer. *)
Theorem text_to_image_binary (w : World) (text : string) (tr : list event)
    (Hascii : Str.is_ascii text = true) :
  let proc := w.(popen) magick_command (Str.encode text) in
  (forall tr' b,
     text_to_image w text tr = (tr', Ok b) ->
     exists img,
       In (Popen magick_command (Str.encode text)) tr' /\
       proc.(returncode) = 0 /\
       w.(imdecode) proc.(stdout) = Some img /\
       b.(shape) = img.(shape) /\
       Forall2 (fun p q => q = if p <=? 127 then 1 else 0)
               img.(pixels) b.(pixels) /\
       Forall (fun q => q = 0 \/ q = 1) b.(pixels)) /\
  writes (fst (text_to_image w text tr)) = writes tr.
Proof.
  intros proc. rewrite text_to_image_unfold. cbv zeta. fold proc.
  split.
  - destruct (Z.eqb_spec (returncode proc) 0) as [Hrc|Hrc]; simpl negb;
      cbv iota; [|intros tr' b H; discriminate H].
    destruct (imdecode w _) as [img|] eqn:Hdec; [|intros tr' b H; discriminate H].
    intros tr' b H. injection H as <- <-. exists img.
    split; [rewrite !in_app_iff; simpl; tauto|].
    split; [exact Hrc|]. split; [reflexivity|]. split; [reflexivity|].
    pose proof (threshold_pixels img) as Hp. split; [exact Hp|].
    revert Hp. generalize (pixels (threshold_binary_inv img 127 1)).
    induction 1 as [|p q ps qs Hq _ IH]; constructor; [|exact IH].
    subst q. destruct (p <=? 127); auto.
  - destruct (negb _); [|destruct (imdecode w _)]; simpl fst;
      rewrite !writes_app; simpl; now rewrite ?app_nil_r.
Qed.

Lemma text_to_image_binary_witness :
  Str.is_ascii "hello" = true /\
  text_to_image Demo.nearby "hello" [] =
    (fst (text_to_image Demo.nearby "hello" []),
     Ok {| shape := (1, 2); pixels := [1; 0] |}) /\
  Forall (fun q => q = 0 \/ q = 1) [1; 0].
Proof.
  split; [reflexivity|]. split; [reflexivity|].
  destruct (proj1 (@text_to_image_binary Demo.nearby "hello" [] eq_refl) _
              {| shape := (1, 2); pixels := [1; 0] |} eq_refl)
    as (img & _ & _ & _ & _ & _ & H).
  exact H.
Defined.

(** ** Resolving an address again *)

Lemma UUID_range (s : string) (u : Z) :
  uuid.UUID s = Ok u -> 0 <= u < 2 ^ 128.
Proof.
  unfold uuid.UUID. destruct (negb _); [discriminate|].
  destruct (Int16.parse _) as [v|e]; [|discriminate].
  destruct (Z.leb_spec 0 v), (Z.ltb_spec v (2 ^ 128)); simpl;
    try discriminate.
  intros [= <-]. lia.
Qed.

Lemma hex_char_digit (d : Z) :
  0 <= d < 16 ->
  Int16.is_hex (Int16.hex_char d) = true /\
  Str.is_upper (Int16.hex_char d) = false.
Proof.
  intros Hd.
  assert (H : d = 0 \/ d = 1 \/ d = 2 \/ d = 3 \/ d = 4 \/ d = 5 \/ d = 6 \/
              d = 7 \/ d = 8 \/ d = 9 \/ d = 10 \/ d = 11 \/ d = 12 \/
              d = 13 \/ d = 14 \/ d = 15) by lia.
  repeat (destruct H as [-> | H]; [split; reflexivity|]).
  subst d. split; reflexivity.
Qed.

Lemma format_chars (u : Z) :
  0 <= u < 2 ^ 128 ->
  exists l,
    Int16.format_032x u = string_of_list_ascii l /\
    List.length l = 32%nat /\
    Forall (fun c => Int16.is_hex c = true /\ Str.is_upper c = false) l.
Proof.
  intros Hu. unfold Int16.format_032x.
  rewrite hex_len_32 by (change (16 ^ 32) with (2 ^ 128); exact Hu).
  eexists. split; [reflexivity|]. split.
  - now rewrite length_map, length_rev, length_seq.
  - apply Forall_forall. intros c Hc.
    apply in_map_iff in Hc as (i & <- & _).
    apply hex_char_digit. apply Z.mod_pos_bound. lia.
Qed.

(** Thirty-two lower-case digits cut at 8, 12, 16 and 20 and joined with
    dashes make a canonical identifier without upper-case letters. *)
Lemma dashed_canonical (l : list ascii) :
  List.length l = 32%nat ->
  Forall (fun c => Int16.is_hex c = true /\ Str.is_upper c = false) l ->
  let hex := string_of_list_ascii l in
  let s := (Str.slice hex 0 8 ++ "-" ++ Str.slice hex 8 12 ++ "-" ++
            Str.slice hex 12 16 ++ "-" ++ Str.slice hex 16 20 ++ "-" ++
            Str.slice hex 20 (Str.len hex))%string in
  has_form uuid_form s = true /\
  Str.all_chars (fun c => negb (Str.is_upper c)) s = true.
Proof.
  intros Hlen Hall.
  do 32 (destruct l as [|? l]; [discriminate Hlen|]).
  destruct l; [clear Hlen|discriminate Hlen].
  repeat match goal with
         | H : Forall _ (_ :: _) |- _ =>
             let H1 := fresh "H" in
             let H2 := fresh "H" in
             let H3 := fresh "H" in
             apply Forall_cons_iff in H; destruct H as [[H1 H2] H3]
         end.
  cbv -[Int16.is_hex Str.is_upper].
  repeat match goal with
         | H : Int16.is_hex _ = true |- _ => rewrite H; clear H
         | H : Str.is_upper _ = false |- _ => rewrite H; clear H
         end.
  split; reflexivity.
Qed.

(** X18. An address resolves to itself.  Whatever address string
    [get_device_address] returns for an identifier of ASCII characters,
    that string is made of ASCII characters, and giving it back as the
    identifier returns it again, verbatim and without scanning. *)
Theorem get_device_address_idempotent (w : World) (s a : string)
    (tr tr' : list event) :
  Str.is_ascii s = true ->
  get_device_address w (Some s) tr = (tr', Ok (AddrStr a)) ->
  Str.is_ascii a = true /\
  forall tr2, get_device_address w (Some a) tr2 = (tr2, Ok (AddrStr a)).
Proof.
  intros Hascii H. rewrite get_device_address_cases in H.
  assert (Hscan : scanning w (Some s) tr <> (tr', Ok (AddrStr a))).
  { unfold scanning, bind. rewrite scan_unfold. cbv zeta.
    destruct (find _ _); discriminate. }
  destruct s as [|c r]; [now elim Hscan|].
  destruct (uuid.UUID (String c r)) as [u|e] eqn:Hu.
  - injection H as _ <-.
    destruct (format_chars (UUID_range _ Hu)) as (l & El & Hlen & Hall).
    destruct (@dashed_canonical l Hlen Hall) as [Hform Hlow].
    cbv zeta in Hform, Hlow. rewrite <- El in Hform, Hlow.
    change (has_form uuid_form (uuid.str u) = true) in Hform.
    change (Str.all_chars (fun c => negb (Str.is_upper c)) (uuid.str u) = true)
      in Hlow.
    split.
    + apply (has_form_chars Str.is_ascii_char (f := uuid_form)); [| |exact Hform].
      * intros c0. clear. each_char c0.
      * unfold uuid_form, hexes. simpl. repeat constructor.
    + intros tr2. rewrite get_device_address_cases.
      rewrite (UUID_canonical _ Hform), (str_canonical _ Hform).
      rewrite (lower_fixed _ Hlow).
      destruct (uuid.str u) eqn:E; [discriminate Hform|reflexivity].
  - destruct (five_colons_alnum (String c r)) eqn:Ht; [|now elim Hscan].
    injection H as _ <-. split; [exact Hascii|].
    intros tr2. now rewrite get_device_address_cases, Hu, Ht.
Qed.

Lemma get_device_address_idempotent_witness :
  Str.is_ascii "{0000AE3000001000800000805F9B34FB}" = true /\
  get_device_address Demo.absent
    (Some "0000ae30-0000-1000-8000-00805f9b34fb") [] =
    ([], Ok (AddrStr "0000ae30-0000-1000-8000-00805f9b34fb")).
Proof.
  split; [reflexivity|].
  apply (proj2 (@get_device_address_idempotent Demo.absent
                  "{0000AE3000001000800000805F9B34FB}"
                  "0000ae30-0000-1000-8000-00805f9b34fb" [] []
                  eq_refl eq_refl)).
Defined.
